(** * Offset tracking and shutdown of the Kafka consumer group

    A shallow embedding of [consumergroup/consumer_group.go] (the consumer
    group and its Zookeeper offset manager) together with the properties
    of the offset state machine, of the open-stream retry and of the two
    [Close] operations.

    Go's [int64] is modelled as [Z] with the wrap-around written out, a Go
    [error] as [option error] ([None] is [nil]), a Go map as a [gmap], a
    channel that is only ever closed as a [bool] (closed or not), and the
    coordination service and the broker as explicit state. *)

From Stdlib Require Import ZArith Lia.
From stdpp Require Import gmap strings list fin_maps.

Local Open Scope Z_scope.

(** ** Signed 64-bit integers *)

Module Int64.

Definition min_int64 : Z := - 2 ^ 63.
Definition max_int64 : Z := 2 ^ 63 - 1.

(** Two's complement wrap-around of an arithmetic result. *)
Definition wrap (z : Z) : Z := (z + 2 ^ 63) mod 2 ^ 64 - 2 ^ 63.

Definition add (a b : Z) : Z := wrap (a + b).
Definition sub (a b : Z) : Z := wrap (a - b).

Definition in_range (z : Z) : Prop := min_int64 <= z <= max_int64.

End Int64.

(** ** Errors and results *)

(** Modelled from the spec: the error values [OffsetTooLarge],
    [OffsetBackwardsError], [NoOffsetToCommit], [TopicPartitionNotFound],
    [UncleanClose] and [AlreadyClosing] are declared in a file of the
    package that is not part of the listing; the spec's error taxonomy names
    them.  [ErrOffsetOutOfRange] is the broker client's,
    [ErrPartitionClaimedByOther] the coordination client's, a [ZkError] or
    [BrokerError] is any other error of an external collaborator, and
    [CommitFailed] is the error [FinalizePartition] builds with
    [fmt.Errorf]. *)
Inductive error : Type :=
| OffsetTooLarge
| OffsetBackwardsError
| NoOffsetToCommit
| TopicPartitionNotFound
| UncleanClose
| AlreadyClosing
| ErrOffsetOutOfRange
| ErrPartitionClaimedByOther
| ZkError (msg : string)
| BrokerError (msg : string)
| CommitFailed (highest committed : Z) (cause : error).

Definition isNoOffsetToCommit (e : error) : bool :=
  match e with NoOffsetToCommit => true | _ => false end.

Definition isErrPartitionClaimedByOther (e : error) : bool :=
  match e with ErrPartitionClaimedByOther => true | _ => false end.

Definition isErrOffsetOutOfRange (e : error) : bool :=
  match e with ErrOffsetOutOfRange => true | _ => false end.

(** What a call that returns an [error] does: it returns ([None] for [nil])
    or the goroutine panics. *)
Inductive outcome : Type :=
| Returns (err : option error)
| Panics (msg : string).

(** ** partitionOffsetTracker *)

Record partitionOffsetTracker : Type := mkTracker {
  done : bool;  (* the channel [done]: [true] once it is closed *)
  waitingForOffset : Z;
  highestMarkedAsProcessedOffset : Z;
  lastConsumedOffset : Z;
  lastCommittedOffset : Z
}.

Definition setHighestMarkedAsProcessedOffset (v : Z) (pot : partitionOffsetTracker) :=
  mkTracker (done pot) (waitingForOffset pot) v
            (lastConsumedOffset pot) (lastCommittedOffset pot).

Definition setLastConsumedOffset (v : Z) (pot : partitionOffsetTracker) :=
  mkTracker (done pot) (waitingForOffset pot) (highestMarkedAsProcessedOffset pot)
            v (lastCommittedOffset pot).

Definition setLastCommittedOffset (v : Z) (pot : partitionOffsetTracker) :=
  mkTracker (done pot) (waitingForOffset pot) (highestMarkedAsProcessedOffset pot)
            (lastConsumedOffset pot) v.

Definition setWaitingForOffset (v : Z) (pot : partitionOffsetTracker) :=
  mkTracker (done pot) v (highestMarkedAsProcessedOffset pot)
            (lastConsumedOffset pot) (lastCommittedOffset pot).

Definition closeDone (pot : partitionOffsetTracker) :=
  mkTracker true (waitingForOffset pot) (highestMarkedAsProcessedOffset pot)
            (lastConsumedOffset pot) (lastCommittedOffset pot).

(** The tracker [InitializePartition] allocates: the three offsets are
    [nextOffset - 1], [waitingForOffset] has Go's zero value and [done] is a
    fresh open channel. *)
Definition newTracker (nextOffset : Z) : partitionOffsetTracker :=
  {| done := false;
     waitingForOffset := 0;
     highestMarkedAsProcessedOffset := Int64.sub nextOffset 1;
     lastConsumedOffset := Int64.sub nextOffset 1;
     lastCommittedOffset := Int64.sub nextOffset 1 |}.

(** [markAsProcessed]: the new tracker state and what the call returns.
    Closing [done] a second time panics, after the field was written. *)
Definition markAsProcessed (pot : partitionOffsetTracker) (offset : Z)
  : partitionOffsetTracker * outcome :=
  if Int64.add (lastConsumedOffset pot) 1 <? offset then
    (pot, Returns (Some OffsetTooLarge))
  else if highestMarkedAsProcessedOffset pot <? offset then
    let pot1 := setHighestMarkedAsProcessedOffset offset pot in
    if waitingForOffset pot1 =? highestMarkedAsProcessedOffset pot1 then
      if done pot1 then (pot1, Panics "close of closed channel")
      else (closeDone pot1, Returns None)
    else (pot1, Returns None)
  else
    (pot, Returns (Some OffsetBackwardsError)).

(** An [offsetCommitter] is a closure: it may change the world [W] it
    captures, and returns an error or [nil]. *)
Definition offsetCommitter (W : Type) : Type := Z -> W -> W * option error.

Definition commit {W : Type} (pot : partitionOffsetTracker)
    (committer : offsetCommitter W) (w : W)
  : partitionOffsetTracker * W * option error :=
  if lastCommittedOffset pot <? highestMarkedAsProcessedOffset pot then
    match committer (highestMarkedAsProcessedOffset pot) w with
    | (w', Some err) => (pot, w', Some err)
    | (w', None) =>
        (setLastCommittedOffset (highestMarkedAsProcessedOffset pot) pot, w', None)
    end
  else
    (pot, w, Some NoOffsetToCommit).

(** [waitForOffset]: [doneBeforeTimeout] says which case of the [select]
    is taken when the call has to wait, [<-pot.done] ([true]) or
    [<-time.After(timeout)] ([false]). *)
Definition waitForOffset (pot : partitionOffsetTracker) (offset timeout : Z)
    (doneBeforeTimeout : bool) : partitionOffsetTracker * bool :=
  if highestMarkedAsProcessedOffset pot <? offset then
    (setWaitingForOffset offset pot, doneBeforeTimeout)
  else
    (pot, true).

(** A committer that records the arguments it is called with, in front of
    the world of the committer it wraps. *)
Definition recording {W : Type} (committer : offsetCommitter W)
  : offsetCommitter (list Z * W) :=
  fun offset '(calls, w) =>
    let '(w', err) := committer offset w in (calls ++ [offset], w', err).

(** ** The coordination service *)

Inductive zkCall : Type :=
| ZkFetchOffset (topic : string) (partition : Z)
| ZkCommitOffset (topic : string) (partition offset : Z)
| ZkClaimPartition (topic : string) (partition : Z)
| ZkReleasePartition (topic : string) (partition : Z)
| ZkDeregister
| ZkClose.

(** Modelled from the spec: the coordination-service client is an external
    collaborator.  Its state here is the content of the nodes
    [consumers/{group}/offsets/{topic}/{partition}], the outcomes of the
    requests to come (a request takes the first entry, [Some e] makes it
    fail with [e], no entry left means success), and the requests made so
    far, oldest first. *)
Record zookeeper : Type := mkZk {
  zkOffsets : gmap (string * Z) Z;
  zkFaults : list (option error);
  zkCalls : list zkCall
}.

(** A request reaches the service: it is recorded, and the next scripted
    outcome is consumed. *)
Definition zkRequest (call : zkCall) (zk : zookeeper) : zookeeper * option error :=
  match zkFaults zk with
  | [] => (mkZk (zkOffsets zk) [] (zkCalls zk ++ [call]), None)
  | fault :: faults => (mkZk (zkOffsets zk) faults (zkCalls zk ++ [call]), fault)
  end.

(** [group.FetchOffset]: the stored next offset, [-1] when the node does not
    exist. *)
Definition FetchOffset (zk : zookeeper) (topic : string) (partition : Z)
  : zookeeper * (Z * option error) :=
  match zkRequest (ZkFetchOffset topic partition) zk with
  | (zk', Some err) => (zk', (-1, Some err))
  | (zk', None) => (zk', (default (-1) (zkOffsets zk' !! (topic, partition)), None))
  end.

(** [group.CommitOffset]: an atomic write of the node. *)
Definition CommitOffset (zk : zookeeper) (topic : string) (partition offset : Z)
  : zookeeper * option error :=
  match zkRequest (ZkCommitOffset topic partition offset) zk with
  | (zk', Some err) => (zk', Some err)
  | (zk', None) =>
      (mkZk (<[(topic, partition) := offset]> (zkOffsets zk')) (zkFaults zk') (zkCalls zk'),
       None)
  end.

(** [instance.ClaimPartition], [instance.ReleasePartition],
    [instance.Deregister] and [kazoo.Close]. *)
Definition ClaimPartition (zk : zookeeper) (topic : string) (partition : Z)
  : zookeeper * option error :=
  zkRequest (ZkClaimPartition topic partition) zk.

Definition ReleasePartition (zk : zookeeper) (topic : string) (partition : Z)
  : zookeeper :=
  fst (zkRequest (ZkReleasePartition topic partition) zk).

Definition Deregister (zk : zookeeper) : zookeeper * option error :=
  zkRequest ZkDeregister zk.

Definition zkClose (zk : zookeeper) : zookeeper :=
  fst (zkRequest ZkClose zk).

(** ** zookeeperOffsetManager *)

Record zookeeperOffsetManager : Type := mkZom {
  offsets : gmap string (gmap Z partitionOffsetTracker);
  closing : bool;  (* the channel [closing]: [true] once it is closed *)
  closed : bool    (* the channel [closed] *)
}.

Definition setOffsets (offs : gmap string (gmap Z partitionOffsetTracker))
    (zom : zookeeperOffsetManager) : zookeeperOffsetManager :=
  mkZom offs (closing zom) (closed zom).

(** [zom.offsets[topic][partition]]: indexing a missing topic gives the nil
    map, indexing the nil map gives the nil tracker. *)
Definition lookupTracker (zom : zookeeperOffsetManager) (topic : string) (partition : Z)
  : option partitionOffsetTracker :=
  offsets zom !! topic ≫= fun partitionOffsets => partitionOffsets !! partition.

(** A tracker is shared by pointer: writing through the pointer is writing
    the entry of the map it came from. *)
Definition storeTracker (topic : string) (partition : Z) (tracker : partitionOffsetTracker)
    (zom : zookeeperOffsetManager) : zookeeperOffsetManager :=
  setOffsets (alter (insert partition tracker) topic (offsets zom)) zom.

(** [delete(zom.offsets[topic], partition)]; deleting from the nil map does
    nothing. *)
Definition deleteTracker (topic : string) (partition : Z)
    (zom : zookeeperOffsetManager) : zookeeperOffsetManager :=
  setOffsets (alter (delete partition) topic (offsets zom)) zom.

(** The calls [FinalizePartition] makes on the tracker, in order. *)
Inductive trackerCall : Type :=
| CallWaitForOffset (offset timeout : Z) (reached : bool)
| CallCommitOffset (err : option error).

(** The methods of the receiver [zom]. *)
Module Zom.

Definition NewZookeeperOffsetManager : zookeeperOffsetManager :=
  {| offsets := ∅; closing := false; closed := false |}.

Definition InitializePartition (zk : zookeeper) (zom : zookeeperOffsetManager)
    (topic : string) (partition : Z)
  : zookeeper * zookeeperOffsetManager * (Z * option error) :=
  let offs :=
    match offsets zom !! topic with
    | None => <[topic := ∅]> (offsets zom)
    | Some _ => offsets zom
    end in
  match FetchOffset zk topic partition with
  | (zk', (_, Some err)) => (zk', setOffsets offs zom, (0, Some err))
  | (zk', (nextOffset, None)) =>
      (zk',
       setOffsets (alter (insert partition (newTracker nextOffset)) topic offs) zom,
       (nextOffset, None))
  end.

(** The committer [commitOffset] hands to [tracker.commit]. *)
Definition zkCommitter (topic : string) (partition : Z) : offsetCommitter zookeeper :=
  fun offset zk =>
    if 0 <=? offset then CommitOffset zk topic partition (Int64.add offset 1)
    else (zk, None).

Definition commitOffset (zk : zookeeper) (topic : string) (partition : Z)
    (tracker : partitionOffsetTracker)
  : partitionOffsetTracker * zookeeper * option error :=
  commit tracker (zkCommitter topic partition) zk.

Definition FinalizePartition (zk : zookeeper) (zom : zookeeperOffsetManager)
    (topic : string) (partition lastOffset timeout : Z) (doneBeforeTimeout : bool)
  : zookeeper * zookeeperOffsetManager * list trackerCall * outcome :=
  if 0 <=? lastOffset then
    match lookupTracker zom topic partition with
    | None => (zk, zom, [], Panics "nil pointer dereference")
    | Some tracker =>
        let '(tracker1, calls1) :=
          if 0 <? Int64.sub lastOffset (highestMarkedAsProcessedOffset tracker) then
            let '(t, reached) := waitForOffset tracker lastOffset timeout doneBeforeTimeout in
            (t, [CallWaitForOffset lastOffset timeout reached])
          else (tracker, []) in
        let '(tracker2, zk2, err) := commitOffset zk topic partition tracker1 in
        let zom2 := storeTracker topic partition tracker2 zom in
        let calls2 := calls1 ++ [CallCommitOffset err] in
        match err with
        | Some e =>
            if isNoOffsetToCommit e then
              (zk2, deleteTracker topic partition zom2, calls2, Returns None)
            else
              (zk2, zom2, calls2,
               Returns (Some (CommitFailed (highestMarkedAsProcessedOffset tracker2)
                                           (lastCommittedOffset tracker2) e)))
        | None => (zk2, deleteTracker topic partition zom2, calls2, Returns None)
        end
    end
  else
    (zk, deleteTracker topic partition zom, [], Returns None).

Definition MarkAsProcessed (zom : zookeeperOffsetManager) (topic : string)
    (partition offset : Z) : zookeeperOffsetManager * outcome :=
  match lookupTracker zom topic partition with
  | Some p =>
      let '(p', result) := markAsProcessed p offset in
      (storeTracker topic partition p' zom, result)
  | None => (zom, Returns (Some TopicPartitionNotFound))
  end.

Definition MarkAsConsumed (zom : zookeeperOffsetManager) (topic : string)
    (partition offset : Z) : zookeeperOffsetManager * option error :=
  match lookupTracker zom topic partition with
  | Some p => (storeTracker topic partition (setLastConsumedOffset offset p) zom, None)
  | None => (zom, Some TopicPartitionNotFound)
  end.

(** [commitOffsets]: one round over every tracker of every topic.  Go
    ranges over a map in no fixed order; the model takes the order of
    [map_fold]. *)
Definition commitTopic (topic : string) (zk : zookeeper)
    (partitionOffsets : gmap Z partitionOffsetTracker)
  : zookeeper * gmap Z partitionOffsetTracker :=
  map_fold
    (fun partition offsetTracker '(zk1, acc) =>
       let '(tracker', zk2, _) := commitOffset zk1 topic partition offsetTracker in
       (zk2, <[partition := tracker']> acc))
    (zk, ∅) partitionOffsets.

Definition commitOffsets (zk : zookeeper) (zom : zookeeperOffsetManager)
  : zookeeper * zookeeperOffsetManager :=
  let '(zk', offs) :=
    map_fold
      (fun topic partitionOffsets '(zk1, acc) =>
         let '(zk2, partitionOffsets') := commitTopic topic zk1 partitionOffsets in
         (zk2, <[topic := partitionOffsets']> acc))
      (zk, ∅) (offsets zom) in
  (zk', setOffsets offs zom).

(** The committer goroutine: [ticks] rounds of [commitOffsets], one for
    each time the [select] takes the ticker, and then, [closing] being
    closed, it closes [closed] and returns. *)
Fixpoint offsetCommitter (ticks : nat) (zk : zookeeper) (zom : zookeeperOffsetManager)
  : zookeeper * zookeeperOffsetManager :=
  match ticks with
  | O => (zk, mkZom (offsets zom) (closing zom) true)
  | S n =>
      let '(zk', zom') := commitOffsets zk zom in
      offsetCommitter n zk' zom'
  end.

(** The loop of [Close] over the topics of the map. *)
Definition closeError (offs : gmap string (gmap Z partitionOffsetTracker)) : option error :=
  map_fold
    (fun _ partitionOffsets err =>
       if 0 <? Z.of_nat (size partitionOffsets) then Some UncleanClose else err)
    None offs.

(** [zom.Close]: closes [closing], receives from [closed] (the committer
    goroutine runs until it has closed it, after [ticks] more rounds), and
    looks for a topic that still has a tracker. *)
Definition Close (ticks : nat) (zk : zookeeper) (zom : zookeeperOffsetManager)
  : zookeeper * zookeeperOffsetManager * outcome :=
  if closing zom then (zk, zom, Panics "close of closed channel")
  else
    let '(zk', zom') := offsetCommitter ticks zk (mkZom (offsets zom) true (closed zom)) in
    (zk', zom', Returns (closeError (offsets zom'))).

End Zom.

(** ** The broker client *)

Definition OffsetNewest : Z := -1.
Definition OffsetOldest : Z := -2.

(** [time.Second], in nanoseconds. *)
Definition Second : Z := 1000000000.

Inductive brokerCall : Type :=
| BrConsumePartition (topic : string) (partition offset : Z)
| BrPartitionConsumerClose (topic : string) (partition : Z)
| BrConsumerClose.

(** Modelled from the spec: the broker client is an external collaborator.
    As for the coordination service, its state is the outcomes of the
    requests to come and the requests made so far. *)
Record broker : Type := mkBroker {
  brResponses : list (option error);
  brCalls : list brokerCall
}.

Definition brokerRequest (call : brokerCall) (br : broker) : broker * option error :=
  match brResponses br with
  | [] => (mkBroker [] (brCalls br ++ [call]), None)
  | response :: responses => (mkBroker responses (brCalls br ++ [call]), response)
  end.

(** [consumer.ConsumePartition]: [None] when a partition consumer was
    opened. *)
Definition ConsumePartition (br : broker) (topic : string) (partition offset : Z)
  : broker * option error :=
  brokerRequest (BrConsumePartition topic partition offset) br.

Definition PartitionConsumerClose (br : broker) (topic : string) (partition : Z) : broker :=
  fst (brokerRequest (BrPartitionConsumerClose topic partition) br).

Definition ConsumerClose (br : broker) : broker * option error :=
  brokerRequest BrConsumerClose br.

(** ** ConsumerGroup *)

Record ConsumerMessage : Type := mkMessage {
  msgTopic : string;
  msgPartition : Z;
  msgOffset : Z
}.

Record ConsumerError : Type := mkConsumerError {
  errTopic : string;
  errPartition : Z;
  errErr : error
}.

(** The fields of the group the methods below use.  A channel is what was
    sent on it, oldest first, and whether it is closed; [instancePresent] is
    [cg.instance != nil]; [singleShutdown] is whether the [sync.Once] has
    run. *)
Record ConsumerGroup : Type := mkCg {
  configInitial : Z;            (* config.Offsets.Initial *)
  configProcessingTimeout : Z;  (* config.Offsets.ProcessingTimeout *)
  consumer : broker;
  kazoo : zookeeper;
  instancePresent : bool;
  singleShutdown : bool;
  messages : list (option ConsumerMessage);
  messagesClosed : bool;
  errors : list (option ConsumerError);
  errorsClosed : bool;
  stopper : bool;
  offsetManager : zookeeperOffsetManager
}.

Definition setConsumer (br : broker) (cg : ConsumerGroup) : ConsumerGroup :=
  mkCg (configInitial cg) (configProcessingTimeout cg) br (kazoo cg)
       (instancePresent cg) (singleShutdown cg) (messages cg) (messagesClosed cg)
       (errors cg) (errorsClosed cg) (stopper cg) (offsetManager cg).

Definition setKazoo (zk : zookeeper) (cg : ConsumerGroup) : ConsumerGroup :=
  mkCg (configInitial cg) (configProcessingTimeout cg) (consumer cg) zk
       (instancePresent cg) (singleShutdown cg) (messages cg) (messagesClosed cg)
       (errors cg) (errorsClosed cg) (stopper cg) (offsetManager cg).

Definition setOffsetManager (zom : zookeeperOffsetManager) (cg : ConsumerGroup)
  : ConsumerGroup :=
  mkCg (configInitial cg) (configProcessingTimeout cg) (consumer cg) (kazoo cg)
       (instancePresent cg) (singleShutdown cg) (messages cg) (messagesClosed cg)
       (errors cg) (errorsClosed cg) (stopper cg) zom.

Definition sendMessage (message : option ConsumerMessage) (cg : ConsumerGroup)
  : ConsumerGroup :=
  mkCg (configInitial cg) (configProcessingTimeout cg) (consumer cg) (kazoo cg)
       (instancePresent cg) (singleShutdown cg) (messages cg ++ [message])
       (messagesClosed cg) (errors cg) (errorsClosed cg) (stopper cg) (offsetManager cg).

Definition sendError (err : option ConsumerError) (cg : ConsumerGroup) : ConsumerGroup :=
  mkCg (configInitial cg) (configProcessingTimeout cg) (consumer cg) (kazoo cg)
       (instancePresent cg) (singleShutdown cg) (messages cg) (messagesClosed cg)
       (errors cg ++ [err]) (errorsClosed cg) (stopper cg) (offsetManager cg).

(** What the [select]s of the loop of [consumePartition] take, one entry
    for each turn of the loop: the stopper; an error of the partition
    consumer, then sent on [errors] ([delivered]) or overtaken by the
    stopper; a message (nil once the channel is closed), then sent on
    [messages] or overtaken by the stopper. *)
Inductive pumpEvent : Type :=
| EvStop
| EvError (err : option ConsumerError) (delivered : bool)
| EvMessage (message : option ConsumerMessage) (delivered : bool).

(** How a call of [consumePartition] ends, or [StillConsuming] when the
    events run out with the loop still waiting. *)
Inductive partitionExit : Type :=
| ExitStopped
| ExitClaim (err : error)
| ExitInitialize (err : error)
| ExitOpen (err : error)
| ExitFinalized (result : outcome)
| StillConsuming.

(** The methods of the receiver [cg]. *)
Module Cg.

Definition Closed (cg : ConsumerGroup) : bool := negb (instancePresent cg).

(** [Close].  [wg.Wait()] has nothing to wait for once the goroutines of
    the group have returned; [ticks] is passed to the offset manager.  The
    deferred [kazoo.Close] runs also when the offset manager panics. *)
Definition Close (ticks : nat) (cg : ConsumerGroup) : ConsumerGroup * outcome :=
  if singleShutdown cg then (cg, Returns (Some AlreadyClosing))
  else
    match Zom.Close ticks (kazoo cg) (offsetManager cg) with
    | (zk1, zom1, Panics msg) =>
        (mkCg (configInitial cg) (configProcessingTimeout cg) (consumer cg)
              (zkClose zk1) (instancePresent cg) true (messages cg) (messagesClosed cg)
              (errors cg) (errorsClosed cg) true zom1,
         Panics msg)
    | (zk1, zom1, Returns _) =>
        let '(zk2, shutdownError) := Deregister zk1 in
        let '(br1, shutdownError) := ConsumerClose (consumer cg) in
        (mkCg (configInitial cg) (configProcessingTimeout cg) br1
              (zkClose zk2) false true (messages cg) true
              (errors cg) true true zom1,
         Returns shutdownError)
    end.

Definition CommitUpto (cg : ConsumerGroup) (message : ConsumerMessage)
  : ConsumerGroup * outcome :=
  let '(zom, result) :=
    Zom.MarkAsProcessed (offsetManager cg) (msgTopic message) (msgPartition message)
                        (msgOffset message) in
  (setOffsetManager zom cg, result).

(** The claim loop of [consumePartition]: [remaining] is
    [maxRetries - tries].  [None] when the function goes on (the partition
    was claimed, or the loop did not run at all), [Some err] when it
    returns. *)
Fixpoint claimLoop (remaining : nat) (zk : zookeeper) (topic : string) (partition : Z)
  : zookeeper * option error :=
  match remaining with
  | O => (zk, None)
  | S n =>
      match ClaimPartition zk topic partition with
      | (zk', None) => (zk', None)
      | (zk', Some err) =>
          if isErrPartitionClaimedByOther err && negb (Nat.eqb n 0)
          then claimLoop n zk' topic partition
          else (zk', Some err)
      end
  end.

(** The offset the first [ConsumePartition] is tried with. *)
Definition startOffset (cg : ConsumerGroup) (nextOffset : Z) : Z :=
  if 0 <=? nextOffset then nextOffset else configInitial cg.

(** Opening the partition consumer, with the retry on
    [ErrOffsetOutOfRange]. *)
Definition openPartition (cg : ConsumerGroup) (topic : string) (partition nextOffset : Z)
  : broker * option error :=
  match ConsumePartition (consumer cg) topic partition nextOffset with
  | (br1, Some err) =>
      if isErrOffsetOutOfRange err then
        let nextOffset' :=
          if configInitial cg =? OffsetOldest then OffsetOldest else OffsetNewest in
        ConsumePartition br1 topic partition nextOffset'
      else (br1, Some err)
  | (br1, None) => (br1, None)
  end.

(** The loop [partitionConsumerLoop]: the group, the offset of the last
    message sent on [messages], and whether the loop was left. *)
Fixpoint partitionConsumerLoop (topic : string) (partition : Z) (events : list pumpEvent)
    (lastOffset : Z) (cg : ConsumerGroup) : ConsumerGroup * Z * bool :=
  match events with
  | [] => (cg, lastOffset, false)
  | EvStop :: _ => (cg, lastOffset, true)
  | EvError err delivered :: events' =>
      if delivered
      then partitionConsumerLoop topic partition events' lastOffset (sendError err cg)
      else (cg, lastOffset, true)
  | EvMessage message delivered :: events' =>
      if delivered then
        let cg1 := sendMessage message cg in
        match message with
        | Some m =>
            let '(zom, _) :=
              Zom.MarkAsConsumed (offsetManager cg1) topic partition (msgOffset m) in
            partitionConsumerLoop topic partition events' (msgOffset m)
                                  (setOffsetManager zom cg1)
        | None => partitionConsumerLoop topic partition events' lastOffset cg1
        end
      else (cg, lastOffset, true)
  end.

(** [consumePartition] for one partition in one generation.  [stopped] says
    whether the stopper is already closed on entry, [events] drives the
    loop and [doneBeforeTimeout] the wait of [FinalizePartition]. *)
Definition consumePartition (cg : ConsumerGroup) (topic : string) (partition : Z)
    (stopped : bool) (events : list pumpEvent) (doneBeforeTimeout : bool)
  : ConsumerGroup * partitionExit :=
  if stopped then (cg, ExitStopped)
  else
    let maxRetries := Z.quot (configProcessingTimeout cg) Second + 3 in
    match claimLoop (Z.to_nat maxRetries) (kazoo cg) topic partition with
    | (zk1, Some err) => (setKazoo zk1 cg, ExitClaim err)
    | (zk1, None) =>
        match Zom.InitializePartition zk1 (offsetManager cg) topic partition with
        | (zk2, zom2, (_, Some err)) =>
            (setKazoo (ReleasePartition zk2 topic partition) (setOffsetManager zom2 cg),
             ExitInitialize err)
        | (zk2, zom2, (nextOffset, None)) =>
            let cg2 := setKazoo zk2 (setOffsetManager zom2 cg) in
            match openPartition cg2 topic partition (startOffset cg2 nextOffset) with
            | (br3, Some err) =>
                (setKazoo (ReleasePartition zk2 topic partition) (setConsumer br3 cg2),
                 ExitOpen err)
            | (br3, None) =>
                let cg3 := setConsumer br3 cg2 in
                match partitionConsumerLoop topic partition events (-1) cg3 with
                | (cg4, _, false) => (cg4, StillConsuming)
                | (cg4, lastOffset, true) =>
                    let '(zk5, zom5, _, result) :=
                      Zom.FinalizePartition (kazoo cg4) (offsetManager cg4) topic partition
                        lastOffset (configProcessingTimeout cg4) doneBeforeTimeout in
                    let br5 := PartitionConsumerClose (consumer cg4) topic partition in
                    (setConsumer br5
                       (setKazoo (ReleasePartition zk5 topic partition)
                          (setOffsetManager zom5 cg4)),
                     ExitFinalized result)
                end
            end
        end
    end.

End Cg.

(** ** Joining a group *)

(** Modelled from the spec: [Config] is declared in a file of the package
    that is not part of the listing; these are the options of the spec's
    configuration that [JoinConsumerGroup] and [consumePartition] read. *)
Record Config : Type := mkConfig {
  cfgInitial : Z;            (* Offsets.Initial *)
  cfgProcessingTimeout : Z;  (* Offsets.ProcessingTimeout *)
  cfgResetOffsets : bool     (* Offsets.ResetOffsets *)
}.

(** What [JoinConsumerGroup] returns as an error: a
    [sarama.ConfigurationError], [EmptyZkAddrs] (modelled from the spec: it
    is declared outside the listing, the spec's error taxonomy names it), or
    the error of a collaborator. *)
Inductive joinError : Type :=
| ConfigurationError (msg : string)
| EmptyZkAddrs
| Collaborator (err : error).

(** What the collaborators of [JoinConsumerGroup] answer: [NewConfig] and
    [config.Validate] (their bodies are outside the listing), and the
    requests to the coordination service and to the broker client, in the
    order of the source.  [envExists] is the pair [group.Exists] returns. *)
Record joinEnv : Type := mkJoinEnv {
  envNewConfig : Config;
  envValidate : Config -> option error;
  envNewKazoo : option error;
  envBrokerList : option error;
  envResetOffsets : option error;
  envNewConsumer : option error;
  envExists : bool * option error;
  envCreate : option error;
  envRegister : option error
}.

(** The requests [JoinConsumerGroup] makes and the things it starts, in
    order. *)
Inductive joinStep : Type :=
| StepNewKazoo
| StepBrokerList
| StepResetOffsets
| StepNewConsumer
| StepExists
| StepCreate
| StepRegister (topics : list string)
| StepConsumerClose
| StepKazooClose
| StepNewOffsetManager
| StepConsumeTopics (topics : list string).

(** Modelled from the spec: [group.ResetOffsets] of the coordination client
    wipes the persisted offsets of the group (option [offsets.resetOffsets]:
    on join, wipe persisted offsets before registration). *)
Definition ResetOffsets (zk : zookeeper) : zookeeper :=
  mkZk ∅ (zkFaults zk) (zkCalls zk).

(** The group [JoinConsumerGroup] builds on the connections it has opened. *)
Definition newConsumerGroup (config : Config) (zk : zookeeper) (br : broker)
  : ConsumerGroup :=
  {| configInitial := cfgInitial config;
     configProcessingTimeout := cfgProcessingTimeout config;
     consumer := br;
     kazoo := zk;
     instancePresent := true;
     singleShutdown := false;
     messages := [];
     messagesClosed := false;
     errors := [];
     errorsClosed := false;
     stopper := false;
     offsetManager := Zom.NewZookeeperOffsetManager |}.

(** [JoinConsumerGroup]: the steps taken, the group ([None] for [nil]) and
    the error.  [zk] and [br] are the coordination service and the broker
    as the new connections find them; the group that is returned holds the
    coordination service as the join leaves it, without the stored offsets
    when they were reset. *)
Definition JoinConsumerGroup (env : joinEnv) (zk : zookeeper) (br : broker)
    (name : string) (topics zookeeperAddrs : list string) (config : option Config)
  : list joinStep * option ConsumerGroup * option joinError :=
  if String.eqb name "" then
    ([], None, Some (ConfigurationError "Empty consumergroup name"))
  else if Nat.eqb (length topics) 0 then
    ([], None, Some (ConfigurationError "No topics provided"))
  else if Nat.eqb (length zookeeperAddrs) 0 then
    ([], None, Some EmptyZkAddrs)
  else
    let config := default (envNewConfig env) config in
    match envValidate env config with
    | Some err => ([], None, Some (Collaborator err))
    | None =>
    match envNewKazoo env with
    | Some err => ([StepNewKazoo], None, Some (Collaborator err))
    | None =>
    match envBrokerList env with
    | Some err =>
        ([StepNewKazoo; StepBrokerList; StepKazooClose], None, Some (Collaborator err))
    | None =>
    let steps1 := [StepNewKazoo; StepBrokerList] in
    let '(steps2, resetError) :=
      if cfgResetOffsets config
      then (steps1 ++ [StepResetOffsets], envResetOffsets env)
      else (steps1, None) in
    let zk1 := if cfgResetOffsets config then ResetOffsets zk else zk in
    match resetError with
    | Some err => (steps2 ++ [StepKazooClose], None, Some (Collaborator err))
    | None =>
    match envNewConsumer env with
    | Some err =>
        (steps2 ++ [StepNewConsumer; StepKazooClose], None, Some (Collaborator err))
    | None =>
    let steps3 := steps2 ++ [StepNewConsumer; StepExists] in
    match envExists env with
    | (_, Some err1) =>
        (steps3 ++ [StepConsumerClose; StepKazooClose], None, Some (Collaborator err1))
    | (groupExists, None) =>
    let '(steps4, createError) :=
      if groupExists then (steps3, None) else (steps3 ++ [StepCreate], envCreate env) in
    match createError with
    | Some err =>
        (steps4 ++ [StepConsumerClose; StepKazooClose], None, Some (Collaborator err))
    | None =>
    match envRegister env with
    | Some err => (steps4 ++ [StepRegister topics], None, Some (Collaborator err))
    | None =>
        (steps4 ++ [StepRegister topics; StepNewOffsetManager; StepConsumeTopics topics],
         Some (newConsumerGroup config zk1 br), None)
    end end end end end end end end.

(** [shortID]: the last twelve bytes of the instance id, ["(defunct)"]
    without instance; slicing an id shorter than twelve bytes panics. *)
Definition shortID (instanceID : option string) : option string :=
  match instanceID with
  | None => Some "(defunct)"
  | Some ID =>
      if (String.length ID <? 12)%nat then None
      else Some (String.substring (String.length ID - 12) 12 ID)
  end.

(** ** Histories of a tracker *)

(** The operations that reach a tracker: [MarkAsConsumed] of the manager
    (which writes [lastConsumedOffset]), [markAsProcessed], [commit] with a
    committer that returns [result], and [waitForOffset]. *)
Inductive trackerOp : Type :=
| OpMarkAsConsumed (offset : Z)
| OpMarkAsProcessed (offset : Z)
| OpCommit (result : option error)
| OpWaitForOffset (offset timeout : Z) (doneBeforeTimeout : bool).

Definition applyOp (pot : partitionOffsetTracker) (op : trackerOp)
  : partitionOffsetTracker :=
  match op with
  | OpMarkAsConsumed offset => setLastConsumedOffset offset pot
  | OpMarkAsProcessed offset => fst (markAsProcessed pot offset)
  | OpCommit result => fst (fst (commit pot (fun _ (w : unit) => (w, result)) tt))
  | OpWaitForOffset offset timeout doneBeforeTimeout =>
      fst (waitForOffset pot offset timeout doneBeforeTimeout)
  end.

Definition runOps (ops : list trackerOp) (pot : partitionOffsetTracker)
  : partitionOffsetTracker :=
  fold_left applyOp ops pot.

(** The offsets an operation carries are [int64] values. *)
Definition opInRange (op : trackerOp) : Prop :=
  match op with
  | OpMarkAsConsumed offset | OpMarkAsProcessed offset => Int64.in_range offset
  | OpCommit _ => True
  | OpWaitForOffset offset _ _ => Int64.in_range offset
  end.

(** Messages are consumed in the order of the log: no [MarkAsConsumed]
    carries an offset below the last consumed one, [last]. *)
Fixpoint consumedInOrder (last : Z) (ops : list trackerOp) : bool :=
  match ops with
  | [] => true
  | OpMarkAsConsumed offset :: ops' => (last <=? offset) && consumedInOrder offset ops'
  | _ :: ops' => consumedInOrder last ops'
  end.

Definition isConsumePartitionCall (call : brokerCall) : bool :=
  match call with BrConsumePartition _ _ _ => true | _ => false end.

Definition isCommitCall (call : trackerCall) : bool :=
  match call with CallCommitOffset _ => true | CallWaitForOffset _ _ _ => false end.

(** The part of the invariant that needs the offsets to be [int64] values
    consumed in order: the processed and consumed offsets stay in range and
    [highestMarkedAsProcessedOffset <= lastConsumedOffset + 1]. *)
Definition aheadByOne (pot : partitionOffsetTracker) : Prop :=
  Int64.in_range (highestMarkedAsProcessedOffset pot) /\
  Int64.in_range (lastConsumedOffset pot) /\
  highestMarkedAsProcessedOffset pot <= lastConsumedOffset pot + 1.

(** How [consumePartition] ends once the partition consumer is open: the
    loop is still waiting, or [FinalizePartition] was called. *)
Definition consuming (exit : partitionExit) : Prop :=
  exit = StillConsuming \/ exists result, exit = ExitFinalized result.

(** A group whose stored next offset for [t/0] is 1000, with the initial
    offset [OffsetNewest], and a broker that answers its requests with
    [responses]. *)
Definition exampleGroup (responses : list (option error)) : ConsumerGroup :=
  {| configInitial := OffsetNewest;
     configProcessingTimeout := 2 * Second;
     consumer := mkBroker responses [];
     kazoo := mkZk {[ ("t", 0) := 1000 ]} [] [];
     instancePresent := true;
     singleShutdown := false;
     messages := [];
     messagesClosed := false;
     errors := [];
     errorsClosed := false;
     stopper := false;
     offsetManager := Zom.NewZookeeperOffsetManager |}.


(** The tracker as a [commit] whose committer returns [nil] leaves it. *)
Definition settled (tracker : partitionOffsetTracker) : partitionOffsetTracker :=
  applyOp tracker (OpCommit None).

(** * Properties *)

(** ** Arithmetic of [int64] *)

Ltac int64_lia :=
  unfold Int64.in_range, Int64.min_int64, Int64.max_int64 in *; lia.

Lemma wrap_in_range z : Int64.in_range (Int64.wrap z).
Proof.
  unfold Int64.in_range, Int64.wrap, Int64.min_int64, Int64.max_int64.
  pose proof (Z.mod_pos_bound (z + 2 ^ 63) (2 ^ 64)). lia.
Qed.

Lemma wrap_small z : Int64.in_range z -> Int64.wrap z = z.
Proof.
  unfold Int64.in_range, Int64.wrap, Int64.min_int64, Int64.max_int64. intros Hz.
  rewrite Z.mod_small; lia.
Qed.

Lemma add_no_overflow a b : Int64.in_range (a + b) -> Int64.add a b = a + b.
Proof. apply wrap_small. Qed.

Lemma sub_no_overflow a b : Int64.in_range (a - b) -> Int64.sub a b = a - b.
Proof. apply wrap_small. Qed.

Lemma add_in_range a b : Int64.in_range (Int64.add a b).
Proof. apply wrap_in_range. Qed.

Lemma sub_in_range a b : Int64.in_range (Int64.sub a b).
Proof. apply wrap_in_range. Qed.

(** [max_int64 + 1] is [min_int64], [min_int64 - 1] is [max_int64]. *)
Lemma add_one_overflow : Int64.add Int64.max_int64 1 = Int64.min_int64.
Proof. reflexivity. Qed.

Lemma sub_one_underflow : Int64.sub Int64.min_int64 1 = Int64.max_int64.
Proof. reflexivity. Qed.

(** The successor of an [int64] is either the mathematical one or, at the
    top of the range, the bottom of the range. *)
Lemma add_one_cases a :
  Int64.in_range a ->
  (a < Int64.max_int64 /\ Int64.add a 1 = a + 1) \/
  (a = Int64.max_int64 /\ Int64.add a 1 = Int64.min_int64).
Proof.
  intros Ha. destruct (Z.eq_dec a Int64.max_int64) as [->|Hne].
  - right. split; [reflexivity | apply add_one_overflow].
  - left. unfold Int64.in_range, Int64.min_int64, Int64.max_int64 in *.
    split; [lia|]. apply add_no_overflow.
    unfold Int64.in_range, Int64.min_int64, Int64.max_int64. lia.
Qed.

(** ** The tracker *)

Section Tracker.

Implicit Types (pot : partitionOffsetTracker) (offset : Z).

(** The three ways [markAsProcessed] can go, by the two comparisons it
    makes. *)
Lemma markAsProcessed_cases pot offset :
  (Int64.add (lastConsumedOffset pot) 1 < offset /\
   markAsProcessed pot offset = (pot, Returns (Some OffsetTooLarge))) \/
  (offset <= Int64.add (lastConsumedOffset pot) 1 /\
   highestMarkedAsProcessedOffset pot < offset /\
   highestMarkedAsProcessedOffset (fst (markAsProcessed pot offset)) = offset /\
   lastConsumedOffset (fst (markAsProcessed pot offset)) = lastConsumedOffset pot /\
   lastCommittedOffset (fst (markAsProcessed pot offset)) = lastCommittedOffset pot /\
   waitingForOffset (fst (markAsProcessed pot offset)) = waitingForOffset pot /\
   snd (markAsProcessed pot offset) <> Returns (Some OffsetTooLarge) /\
   snd (markAsProcessed pot offset) <> Returns (Some OffsetBackwardsError)) \/
  (offset <= Int64.add (lastConsumedOffset pot) 1 /\
   offset <= highestMarkedAsProcessedOffset pot /\
   markAsProcessed pot offset = (pot, Returns (Some OffsetBackwardsError))).
Proof.
  unfold markAsProcessed.
  destruct (Z.ltb_spec (Int64.add (lastConsumedOffset pot) 1) offset) as [Hbig|Hbig].
  { left. auto. }
  right.
  destruct (Z.ltb_spec (highestMarkedAsProcessedOffset pot) offset) as [Hup|Hup].
  2:{ right. auto. }
  left. cbn.
  destruct (waitingForOffset pot =? offset); [destruct (done pot)|]; cbn;
    repeat split; auto; discriminate.
Qed.

(** C2: for every tracker and every offset [x] of the [int64] range above
    [lastConsumedOffset + 1], [markAsProcessed x] returns [OffsetTooLarge]
    and the tracker is the one it was. *)
Theorem markAsProcessed_too_large pot x :
  Int64.in_range (lastConsumedOffset pot) ->
  Int64.in_range x ->
  x > lastConsumedOffset pot + 1 ->
  markAsProcessed pot x = (pot, Returns (Some OffsetTooLarge)).
Proof.
  intros Hc Hx Hgt. unfold markAsProcessed.
  rewrite add_no_overflow.
  - destruct (Z.ltb_spec (lastConsumedOffset pot + 1) x); [reflexivity | lia].
  - unfold Int64.in_range, Int64.min_int64, Int64.max_int64 in *. lia.
Qed.

Lemma markAsProcessed_too_large_witness :
  markAsProcessed (mkTracker false 0 3 5 2) 9
  = (mkTracker false 0 3 5 2, Returns (Some OffsetTooLarge)).
Proof.
  apply markAsProcessed_too_large; cbn;
    unfold Int64.in_range, Int64.min_int64, Int64.max_int64; lia.
Defined.

(** C3: when [markAsProcessed y] has returned [nil], a following
    [markAsProcessed x] with [x <= y] returns [OffsetBackwardsError] and the
    tracker is the one the first call left. *)
Theorem markAsProcessed_backwards pot pot' y x :
  markAsProcessed pot y = (pot', Returns None) ->
  x <= y ->
  markAsProcessed pot' x = (pot', Returns (Some OffsetBackwardsError)).
Proof.
  intros Hfirst Hle.
  destruct (markAsProcessed_cases pot y)
    as [[_ E] | [(Hy & _ & Hh & Hc & _) | (_ & _ & E)]];
    try (rewrite E in Hfirst; discriminate).
  rewrite Hfirst in Hh, Hc. cbn in Hh, Hc.
  destruct (markAsProcessed_cases pot' x)
    as [[Hbig _] | [(_ & Hup & _) | (_ & _ & E)]].
  - rewrite Hc in Hbig. lia.
  - lia.
  - exact E.
Qed.

Lemma markAsProcessed_backwards_witness :
  markAsProcessed (mkTracker false 0 5 9 2) 3
  = (mkTracker false 0 5 9 2, Returns (Some OffsetBackwardsError)).
Proof.
  apply (markAsProcessed_backwards (mkTracker false 0 4 9 2) _ 5 3);
    [reflexivity | lia].
Defined.

(** C4: [commit] calls the committer, with
    [highestMarkedAsProcessedOffset], exactly when that offset is above
    [lastCommittedOffset], and then once.  When the committer returns [nil],
    [lastCommittedOffset] becomes [highestMarkedAsProcessedOffset] and
    [commit] returns [nil]; when it returns an error, the tracker is left as
    it was and the error is returned; when there is nothing above
    [lastCommittedOffset], [commit] returns [NoOffsetToCommit] and neither
    the tracker nor the committer's world changes. *)
Theorem commit_calls_committer {W : Type} pot (committer : offsetCommitter W) (w : W) :
  let '(pot', (calls, w'), err) := commit pot (recording committer) ([], w) in
  let highest := highestMarkedAsProcessedOffset pot in
  (calls = [highest] <-> highest > lastCommittedOffset pot) /\
  (calls = [] <-> highest <= lastCommittedOffset pot) /\
  (highest > lastCommittedOffset pot ->
     w' = fst (committer highest w) /\
     err = snd (committer highest w) /\
     (err = None -> pot' = setLastCommittedOffset highest pot) /\
     (err = None -> lastCommittedOffset pot' = highest) /\
     (err <> None -> pot' = pot)) /\
  (highest <= lastCommittedOffset pot ->
     err = Some NoOffsetToCommit /\ pot' = pot /\ w' = w).
Proof.
  unfold commit, recording.
  destruct (Z.ltb_spec (lastCommittedOffset pot) (highestMarkedAsProcessedOffset pot))
    as [Hnew|Hold].
  - destruct (committer (highestMarkedAsProcessedOffset pot) w) as [w1 [e|]]; cbn.
    + repeat split; intros; try congruence; try lia.
    + repeat split; intros; try congruence; try lia.
  - cbn. repeat split; intros; try congruence; try lia.
Qed.

(** [lastCommittedOffset <= highestMarkedAsProcessedOffset] is kept by
    every operation, whatever the offsets. *)
Lemma applyOp_committed_le_highest pot op :
  lastCommittedOffset pot <= highestMarkedAsProcessedOffset pot ->
  lastCommittedOffset (applyOp pot op) <= highestMarkedAsProcessedOffset (applyOp pot op).
Proof.
  intros Hinv. destruct op as [o|o|r|o t d]; cbn.
  - exact Hinv.
  - destruct (markAsProcessed_cases pot o)
      as [[_ E] | [(_ & Hup & Hh & _ & Hc & _) | (_ & _ & E)]];
      [rewrite E; exact Hinv | lia | rewrite E; exact Hinv].
  - unfold commit.
    destruct (lastCommittedOffset pot <? highestMarkedAsProcessedOffset pot);
      [destruct r|]; cbn; lia.
  - unfold waitForOffset.
    destruct (highestMarkedAsProcessedOffset pot <? o); cbn; exact Hinv.
Qed.

Lemma applyOp_aheadByOne pot op :
  opInRange op ->
  consumedInOrder (lastConsumedOffset pot) [op] = true ->
  aheadByOne pot ->
  aheadByOne (applyOp pot op).
Proof.
  intros Hr Hord Hinv. pose proof Hinv as (Hh & Hc & Hle).
  destruct op as [o|o|r|o t d]; cbn in Hr, Hord |- *.
  - apply andb_true_iff in Hord as [Hord _]. apply Z.leb_le in Hord.
    unfold aheadByOne; cbn. split; [exact Hh | split; [exact Hr | lia]].
  - destruct (markAsProcessed_cases pot o)
      as [[_ E] | [(Hbig & Hup & Eh & Ec & _) | (_ & _ & E)]];
      [rewrite E; exact Hinv | | rewrite E; exact Hinv].
    unfold aheadByOne. rewrite Eh, Ec. split; [exact Hr | split; [exact Hc |]].
    destruct (add_one_cases _ Hc) as [[_ E]|[_ E]]; rewrite E in Hbig; int64_lia.
  - unfold commit.
    destruct (lastCommittedOffset pot <? highestMarkedAsProcessedOffset pot);
      [destruct r|]; exact Hinv.
  - unfold waitForOffset.
    destruct (highestMarkedAsProcessedOffset pot <? o); exact Hinv.
Qed.

Lemma consumedInOrder_cons pot op ops :
  consumedInOrder (lastConsumedOffset pot) (op :: ops) = true ->
  consumedInOrder (lastConsumedOffset pot) [op] = true /\
  consumedInOrder (lastConsumedOffset (applyOp pot op)) ops = true.
Proof.
  destruct op as [o|o|r|o t d]; cbn.
  - intros [H1 H2]%andb_true_iff. rewrite H1. auto.
  - intros H. split; [reflexivity|].
    destruct (markAsProcessed_cases pot o)
      as [[_ E] | [(_ & _ & _ & Ec & _) | (_ & _ & E)]];
      rewrite ?E, ?Ec; exact H.
  - intros H. split; [reflexivity|]. unfold commit.
    destruct (lastCommittedOffset pot <? highestMarkedAsProcessedOffset pot);
      [destruct r|]; exact H.
  - intros H. split; [reflexivity|]. unfold waitForOffset.
    destruct (highestMarkedAsProcessedOffset pot <? o); exact H.
Qed.

Lemma runOps_committed_le_highest ops : forall pot,
  lastCommittedOffset pot <= highestMarkedAsProcessedOffset pot ->
  lastCommittedOffset (runOps ops pot) <= highestMarkedAsProcessedOffset (runOps ops pot).
Proof.
  induction ops as [|op ops IH]; intros pot Hinv; [exact Hinv|].
  apply IH, applyOp_committed_le_highest, Hinv.
Qed.

Lemma runOps_aheadByOne ops : forall pot,
  Forall opInRange ops ->
  consumedInOrder (lastConsumedOffset pot) ops = true ->
  aheadByOne pot ->
  aheadByOne (runOps ops pot).
Proof.
  induction ops as [|op ops IH]; intros pot Hr Hord Hinv; [exact Hinv|].
  apply Forall_cons in Hr as [Hop Hr].
  apply consumedInOrder_cons in Hord as [Hord1 Hord2].
  apply IH; [exact Hr | exact Hord2 |].
  apply applyOp_aheadByOne; assumption.
Qed.

Lemma newTracker_aheadByOne nextOffset : aheadByOne (newTracker nextOffset).
Proof.
  unfold aheadByOne, newTracker; cbn.
  split; [apply sub_in_range | split; [apply sub_in_range | lia]].
Qed.

(** C1, as the code has it: in every state a tracker reaches from the one
    [InitializePartition] allocates, by [MarkAsConsumed], [markAsProcessed],
    [commit] and [waitForOffset], [lastCommittedOffset] is at most
    [highestMarkedAsProcessedOffset]; and when the offsets are [int64]
    values and no [MarkAsConsumed] goes below the last consumed offset,
    [highestMarkedAsProcessedOffset] is at most [lastConsumedOffset + 1]. *)
Theorem tracker_offsets_ordered nextOffset ops :
  let pot := runOps ops (newTracker nextOffset) in
  lastCommittedOffset pot <= highestMarkedAsProcessedOffset pot /\
  (Forall opInRange ops ->
   consumedInOrder (Int64.sub nextOffset 1) ops = true ->
   highestMarkedAsProcessedOffset pot <= lastConsumedOffset pot + 1).
Proof.
  cbn. split.
  - apply runOps_committed_le_highest. cbn. lia.
  - intros Hr Hord.
    apply (runOps_aheadByOne ops (newTracker nextOffset) Hr Hord),
      newTracker_aheadByOne.
Qed.

Lemma tracker_offsets_ordered_witness :
  let pot :=
    runOps [OpMarkAsConsumed 7; OpMarkAsProcessed 7; OpCommit None;
            OpMarkAsConsumed 8; OpMarkAsProcessed 9] (newTracker 7) in
  lastCommittedOffset pot <= highestMarkedAsProcessedOffset pot /\
  highestMarkedAsProcessedOffset pot <= lastConsumedOffset pot + 1.
Proof.
  destruct (tracker_offsets_ordered 7
    [OpMarkAsConsumed 7; OpMarkAsProcessed 7; OpCommit None;
     OpMarkAsConsumed 8; OpMarkAsProcessed 9]) as [H1 H2].
  split; [exact H1 | apply H2].
  - repeat constructor; cbn; int64_lia.
  - reflexivity.
Defined.

(** C1, as stated, fails: after [InitializePartition] with the stored next
    offset 0, [markAsProcessed 0] is accepted and
    [highestMarkedAsProcessedOffset] (0) is above [lastConsumedOffset]
    (-1). *)
Lemma tracker_processed_above_consumed :
  let pot := runOps [OpMarkAsProcessed 0] (newTracker 0) in
  markAsProcessed (newTracker 0) 0 = (pot, Returns None) /\
  ~ (lastCommittedOffset pot <= highestMarkedAsProcessedOffset pot
     <= lastConsumedOffset pot).
Proof.
  cbn. split; [reflexivity|].
  vm_compute. intros [_ H]. apply H. reflexivity.
Qed.

End Tracker.

(** ** The offset manager *)

Section OffsetManager.

Implicit Types (zk : zookeeper) (zom : zookeeperOffsetManager).
Implicit Types (topic : string) (partition : Z).

Lemma zkRequest_calls call zk :
  zkCalls (fst (zkRequest call zk)) = zkCalls zk ++ [call].
Proof. unfold zkRequest. destruct (zkFaults zk); reflexivity. Qed.

Lemma zkRequest_offsets call zk :
  zkOffsets (fst (zkRequest call zk)) = zkOffsets zk.
Proof. unfold zkRequest. destruct (zkFaults zk); reflexivity. Qed.

Lemma CommitOffset_calls zk topic partition offset :
  zkCalls (fst (CommitOffset zk topic partition offset))
  = zkCalls zk ++ [ZkCommitOffset topic partition offset].
Proof.
  unfold CommitOffset.
  pose proof (zkRequest_calls (ZkCommitOffset topic partition offset) zk) as H.
  destruct (zkRequest _ zk) as [zk' [e|]]; exact H.
Qed.

Lemma CommitOffset_offsets zk topic partition offset :
  match snd (CommitOffset zk topic partition offset) with
  | None =>
      zkOffsets (fst (CommitOffset zk topic partition offset))
      = <[(topic, partition) := offset]> (zkOffsets zk)
  | Some _ => zkOffsets (fst (CommitOffset zk topic partition offset)) = zkOffsets zk
  end.
Proof.
  unfold CommitOffset.
  pose proof (zkRequest_offsets (ZkCommitOffset topic partition offset) zk) as H.
  destruct (zkRequest _ zk) as [zk' [e|]]; cbn in *; congruence.
Qed.

(** C5, as the code has it: called with an offset [o] that is not negative
    (and below the top of the [int64] range), the committer of
    [commitOffset] makes one request to the coordination service, the write
    of [o + 1] for its topic and partition, and the node holds [o + 1] when
    the request succeeds; called with a negative offset it makes no request
    and returns [nil]. *)
Theorem zkCommitter_writes_next topic partition o zk :
  let '(zk', err) := Zom.zkCommitter topic partition o zk in
  (0 <= o < Int64.max_int64 ->
     zkCalls zk' = zkCalls zk ++ [ZkCommitOffset topic partition (o + 1)] /\
     (err = None -> zkOffsets zk' !! (topic, partition) = Some (o + 1)) /\
     (err <> None -> zkOffsets zk' = zkOffsets zk)) /\
  (o < 0 -> zk' = zk /\ err = None).
Proof.
  unfold Zom.zkCommitter. destruct (Z.leb_spec 0 o) as [Hpos|Hneg].
  - pose proof (CommitOffset_calls zk topic partition (Int64.add o 1)) as Hcalls.
    pose proof (CommitOffset_offsets zk topic partition (Int64.add o 1)) as Hoffs.
    destruct (CommitOffset zk topic partition (Int64.add o 1)) as [zk' err].
    cbn in Hcalls, Hoffs. split; [|lia].
    intros Hrange. rewrite add_no_overflow in Hcalls, Hoffs by int64_lia.
    split; [exact Hcalls|]. split.
    + intros ->. rewrite Hoffs. apply lookup_insert_eq.
    + intros Herr. destruct err; [exact Hoffs | congruence].
  - split; [lia | auto].
Qed.

Lemma zkCommitter_writes_next_witness :
  let '(zk', err) := Zom.zkCommitter "t" 0 9 (mkZk ∅ [] []) in
  zkCalls zk' = [ZkCommitOffset "t" 0 10] /\
  zkOffsets zk' !! ("t", 0) = Some 10 /\ err = None.
Proof.
  pose proof (zkCommitter_writes_next "t" 0 9 (mkZk ∅ [] [])) as H.
  destruct (Zom.zkCommitter "t" 0 9 (mkZk ∅ [] [])) as [zk' err] eqn:E.
  destruct H as [H _].
  destruct H as (Hcalls & Hstored & _); [int64_lia|].
  assert (err = None) as -> by (vm_compute in E; congruence).
  split; [exact Hcalls | split; [apply Hstored; reflexivity | reflexivity]].
Defined.

(** C5, as stated, fails: with nothing stored for the partition, the
    tracker starts at -2, [markAsProcessed (-1)] is accepted, and the commit
    that follows calls the committer with -1, which writes nothing (not 0)
    and reports success. *)
Lemma zkCommitter_negative_writes_nothing :
  let zk := mkZk ∅ [] [] in
  let tracker := fst (markAsProcessed (newTracker (-1)) (-1)) in
  highestMarkedAsProcessedOffset tracker = -1 /\
  Zom.commitOffset zk "t" 0 tracker = (setLastCommittedOffset (-1) tracker, zk, None) /\
  Zom.zkCommitter "t" 0 (-1) zk = (zk, None) /\
  zkCalls (fst (Zom.zkCommitter "t" 0 (-1) zk)) <> zkCalls zk ++ [ZkCommitOffset "t" 0 (-1 + 1)].
Proof.
  cbn. repeat split. discriminate.
Qed.

Lemma FetchOffset_stored zk topic partition zk1 fetched :
  FetchOffset zk topic partition = (zk1, (fetched, None)) ->
  fetched = default (-1) (zkOffsets zk !! (topic, partition)).
Proof.
  unfold FetchOffset.
  pose proof (zkRequest_offsets (ZkFetchOffset topic partition) zk) as H.
  destruct (zkRequest _ zk) as [zk' [e|]]; cbn in H; intros [= <- <-].
  rewrite H. reflexivity.
Qed.

Lemma lookupTracker_storeTracker zom topic partition tracker :
  is_Some (offsets zom !! topic) ->
  lookupTracker (storeTracker topic partition tracker zom) topic partition = Some tracker.
Proof.
  intros [po Hpo]. unfold lookupTracker, storeTracker; cbn.
  rewrite lookup_alter_eq, Hpo. cbn. apply lookup_insert_eq.
Qed.

Lemma lookupTracker_deleteTracker zom topic partition :
  lookupTracker (deleteTracker topic partition zom) topic partition = None.
Proof.
  unfold lookupTracker, deleteTracker; cbn.
  rewrite lookup_alter_eq. destruct (offsets zom !! topic) as [po|]; cbn; [|reflexivity].
  apply lookup_delete_eq.
Qed.

Lemma lookupTracker_topic zom topic partition tracker :
  lookupTracker zom topic partition = Some tracker -> is_Some (offsets zom !! topic).
Proof.
  unfold lookupTracker. destruct (offsets zom !! topic); [eauto | discriminate].
Qed.

(** On the tracker [InitializePartition] allocates for a next offset that
    has a predecessor in [int64], the three offsets are [nextOffset - 1] and
    [markAsProcessed nextOffset] is accepted. *)
Lemma newTracker_accepts nextOffset :
  Int64.min_int64 < nextOffset <= Int64.max_int64 ->
  highestMarkedAsProcessedOffset (newTracker nextOffset) = nextOffset - 1 /\
  lastCommittedOffset (newTracker nextOffset) = nextOffset - 1 /\
  lastConsumedOffset (newTracker nextOffset) = nextOffset - 1 /\
  snd (markAsProcessed (newTracker nextOffset) nextOffset) = Returns None /\
  highestMarkedAsProcessedOffset (fst (markAsProcessed (newTracker nextOffset) nextOffset))
  = nextOffset.
Proof.
  intros Hr. unfold newTracker, markAsProcessed; cbn.
  rewrite (sub_no_overflow nextOffset 1) by int64_lia.
  rewrite (add_no_overflow (nextOffset - 1) 1) by int64_lia.
  replace (nextOffset - 1 + 1) with nextOffset by lia.
  rewrite Z.ltb_irrefl.
  destruct (Z.ltb_spec (nextOffset - 1) nextOffset); [|lia].
  clear. destruct nextOffset; repeat split; reflexivity.
Qed.

(** C6: when the fetch succeeds, [InitializePartition] returns the stored
    next offset, -1 when the node holds none, and the tracker it puts in the
    offset map has its three offsets at that value minus one, so that
    [markAsProcessed] (and [MarkAsProcessed] of the manager) at the returned
    offset is accepted.  The returned offset is an [int64] that has a
    predecessor. *)
Theorem InitializePartition_tracker zk zom topic partition zk1 fetched :
  FetchOffset zk topic partition = (zk1, (fetched, None)) ->
  Int64.min_int64 < fetched <= Int64.max_int64 ->
  let '(zk', zom', (nextOffset, err)) := Zom.InitializePartition zk zom topic partition in
  zk' = zk1 /\ nextOffset = fetched /\ err = None /\
  fetched = default (-1) (zkOffsets zk !! (topic, partition)) /\
  exists tracker,
    lookupTracker zom' topic partition = Some tracker /\
    highestMarkedAsProcessedOffset tracker = fetched - 1 /\
    lastCommittedOffset tracker = fetched - 1 /\
    lastConsumedOffset tracker = fetched - 1 /\
    snd (markAsProcessed tracker fetched) = Returns None /\
    highestMarkedAsProcessedOffset (fst (markAsProcessed tracker fetched)) = fetched /\
    snd (Zom.MarkAsProcessed zom' topic partition fetched) = Returns None.
Proof.
  intros Hfetch Hr. unfold Zom.InitializePartition. rewrite Hfetch.
  repeat (split; [reflexivity|]).
  split; [eapply FetchOffset_stored, Hfetch|].
  set (offs := match offsets zom !! topic with
               | Some _ => offsets zom
               | None => <[topic:=∅]> (offsets zom)
               end).
  assert (is_Some (offs !! topic)) as [po Hpo].
  { subst offs. destruct (offsets zom !! topic) eqn:E; [rewrite E; eauto|].
    rewrite lookup_insert_eq. eauto. }
  assert (lookupTracker
            (setOffsets (alter (insert partition (newTracker fetched)) topic offs) zom)
            topic partition = Some (newTracker fetched)) as Hlook.
  { unfold lookupTracker; cbn. rewrite lookup_alter_eq, Hpo. cbn.
    apply lookup_insert_eq. }
  destruct (newTracker_accepts fetched Hr) as (Hh & Hc & Hl & Hret & Hnew).
  exists (newTracker fetched). repeat (split; [assumption|]).
  unfold Zom.MarkAsProcessed. rewrite Hlook.
  destruct (markAsProcessed (newTracker fetched) fetched) as [p' r]. exact Hret.
Qed.

Lemma InitializePartition_tracker_witness :
  let '(zk', zom', (nextOffset, err)) :=
    Zom.InitializePartition (mkZk ∅ [] []) Zom.NewZookeeperOffsetManager "t" 0 in
  nextOffset = -1 /\ err = None /\
  exists tracker,
    lookupTracker zom' "t" 0 = Some tracker /\
    highestMarkedAsProcessedOffset tracker = -2 /\
    lastCommittedOffset tracker = -2 /\
    lastConsumedOffset tracker = -2 /\
    snd (markAsProcessed tracker (-1)) = Returns None.
Proof.
  pose proof (InitializePartition_tracker (mkZk ∅ [] []) Zom.NewZookeeperOffsetManager
                "t" 0 (mkZk ∅ [] [ZkFetchOffset "t" 0]) (-1)) as H.
  destruct (Zom.InitializePartition (mkZk ∅ [] []) Zom.NewZookeeperOffsetManager "t" 0)
    as [[zk' zom'] [nextOffset err]].
  destruct H as (_ & Hn & He & _ & tracker & Hl & Hh & Hc & Hlc & Hm & _);
    [reflexivity | int64_lia |].
  split; [exact Hn | split; [exact He|]].
  exists tracker. repeat (split; [assumption|]). exact Hm.
Defined.

(** At the bottom of the range the predecessor wraps: the tracker starts at
    the top of the range and refuses the offset it was initialised for. *)
Lemma newTracker_min_int64 :
  highestMarkedAsProcessedOffset (newTracker Int64.min_int64) = Int64.max_int64 /\
  markAsProcessed (newTracker Int64.min_int64) Int64.min_int64
  = (newTracker Int64.min_int64, Returns (Some OffsetBackwardsError)).
Proof. split; reflexivity. Qed.

(** The test [lastOffset-tracker.highestMarkedAsProcessedOffset > 0] is
    [lastOffset > highestMarkedAsProcessedOffset] unless the difference
    leaves the [int64] range. *)
Lemma sub_positive lastOffset highest :
  Int64.in_range (lastOffset - highest) ->
  0 < Int64.sub lastOffset highest <-> highest < lastOffset.
Proof. intros Hr. rewrite sub_no_overflow by exact Hr. lia. Qed.

(** C7, as the code has it.  For an initialised partition,
    [FinalizePartition] calls [waitForOffset lastOffset timeout] exactly
    when [lastOffset >= 0] and the [int64] difference
    [lastOffset - highestMarkedAsProcessedOffset] is positive (that is,
    unless the difference overflows, when [lastOffset] is above
    [highestMarkedAsProcessedOffset]), whatever the wait returns.  With
    [lastOffset < 0] it calls nothing, removes the tracker and returns
    [nil].  With [lastOffset >= 0] it then calls [commitOffset] once, as its
    last call; when that returns [nil] or [NoOffsetToCommit] the tracker is
    removed and [nil] returned, and when it returns another error the
    tracker stays in the map and an error is returned. *)
Theorem FinalizePartition_steps zk zom topic partition lastOffset timeout
    doneBeforeTimeout tracker :
  lookupTracker zom topic partition = Some tracker ->
  let '(zk', zom', calls, result) :=
    Zom.FinalizePartition zk zom topic partition lastOffset timeout doneBeforeTimeout in
  let highest := highestMarkedAsProcessedOffset tracker in
  let waits := 0 <= lastOffset /\ 0 < Int64.sub lastOffset highest in
  ((exists reached, CallWaitForOffset lastOffset timeout reached ∈ calls) <-> waits) /\
  (Int64.in_range (lastOffset - highest) ->
     waits <-> 0 <= lastOffset /\ highest < lastOffset) /\
  (lastOffset < 0 ->
     calls = [] /\ zk' = zk /\ result = Returns None /\
     lookupTracker zom' topic partition = None) /\
  (0 <= lastOffset ->
     exists tracker1 tracker2 err,
       tracker1 =
         (if 0 <? Int64.sub lastOffset highest
          then fst (waitForOffset tracker lastOffset timeout doneBeforeTimeout)
          else tracker) /\
       Zom.commitOffset zk topic partition tracker1 = (tracker2, zk', err) /\
       last calls = Some (CallCommitOffset err) /\
       length (List.filter isCommitCall calls) = 1%nat /\
       (err = None \/ err = Some NoOffsetToCommit ->
          result = Returns None /\ lookupTracker zom' topic partition = None) /\
       (forall e, err = Some e -> e <> NoOffsetToCommit ->
          result = Returns (Some (CommitFailed (highestMarkedAsProcessedOffset tracker2)
                                               (lastCommittedOffset tracker2) e)) /\
          lookupTracker zom' topic partition = Some tracker2)).
Proof.
  intros Hlook. pose proof (lookupTracker_topic _ _ _ _ Hlook) as Htopic.
  unfold Zom.FinalizePartition.
  destruct (Z.leb_spec 0 lastOffset) as [Hpos|Hneg].
  2:{ cbn zeta. split; [|split; [|split]].
      - split; [intros [r Hr%elem_of_nil]; contradiction | lia].
      - intros Hr. pose proof (sub_positive _ _ Hr). tauto.
      - intros _. auto using lookupTracker_deleteTracker.
      - lia. }
  rewrite Hlook.
  set (highest := highestMarkedAsProcessedOffset tracker).
  assert (forall tracker2 e,
            isNoOffsetToCommit e = false ->
            lookupTracker (storeTracker topic partition tracker2 zom) topic partition
            = Some tracker2) as Hkept
    by (intros; apply lookupTracker_storeTracker, Htopic).
  assert (forall e, isNoOffsetToCommit e = true -> e = NoOffsetToCommit) as Hyes
    by (intros []; cbn; congruence).
  assert (forall e, isNoOffsetToCommit e = false -> e <> NoOffsetToCommit) as Hno
    by (intros []; cbn; congruence).
  destruct (Z.ltb_spec 0 (Int64.sub lastOffset highest)) as [Hwait|Hwait].
  - destruct (waitForOffset tracker lastOffset timeout doneBeforeTimeout)
      as [tracker1 reached] eqn:Ew.
    destruct (Zom.commitOffset zk topic partition tracker1)
      as [[tracker2 zk2] err] eqn:Ec.
    assert (exists r, CallWaitForOffset lastOffset timeout r
                      ∈ [CallWaitForOffset lastOffset timeout reached]
                        ++ [CallCommitOffset err]) as Hin
      by (exists reached; set_solver).
    destruct err as [e|]; [destruct (isNoOffsetToCommit e) eqn:En|]; cbn zeta;
      (split; [tauto | split; [intros Hr; pose proof (sub_positive _ _ Hr); tauto |]];
       split; [lia | intros _];
       eexists tracker1, tracker2, _;
       split; [reflexivity | split; [exact Ec | split; [reflexivity |]]];
       split; [reflexivity | split]).
    + intros _. auto using lookupTracker_deleteTracker.
    + intros e' [= <-] Hne. apply Hyes in En. contradiction.
    + intros [H|[= ->]]; [discriminate | discriminate En].
    + intros e' [= <-] _. eauto.
    + intros _. auto using lookupTracker_deleteTracker.
    + intros e' [=].
  - destruct (Zom.commitOffset zk topic partition tracker)
      as [[tracker2 zk2] err] eqn:Ec.
    assert (~ exists r, CallWaitForOffset lastOffset timeout r
                        ∈ [] ++ [CallCommitOffset err]) as Hin
      by (intros [r Hr%list_elem_of_singleton]; discriminate).
    destruct err as [e|]; [destruct (isNoOffsetToCommit e) eqn:En|]; cbn zeta;
      (split; [split; [tauto | lia]
              | split; [intros Hr; pose proof (sub_positive _ _ Hr); tauto |]];
       split; [lia | intros _];
       eexists tracker, tracker2, _;
       split; [reflexivity | split; [exact Ec | split; [reflexivity |]]];
       split; [reflexivity | split]).
    + intros _. auto using lookupTracker_deleteTracker.
    + intros e' [= <-] Hne. apply Hyes in En. contradiction.
    + intros [H|[= ->]]; [discriminate | discriminate En].
    + intros e' [= <-] _. eauto.
    + intros _. auto using lookupTracker_deleteTracker.
    + intros e' [=].
Qed.

(** A partition of topic [t] whose stored next offset is 50: the messages
    50 to 52 were delivered and 51 was acknowledged. *)
Lemma FinalizePartition_steps_witness :
  let zk0 := mkZk {[ ("t", 0) := 50 ]} [] [] in
  let '(zk1, zom1, _) := Zom.InitializePartition zk0 Zom.NewZookeeperOffsetManager "t" 0 in
  let zom2 := fst (Zom.MarkAsConsumed zom1 "t" 0 52) in
  let zom3 := fst (Zom.MarkAsProcessed zom2 "t" 0 51) in
  let '(zk', zom', calls, result) :=
    Zom.FinalizePartition zk1 zom3 "t" 0 52 (2 * Second) false in
  (exists reached, CallWaitForOffset 52 (2 * Second) reached ∈ calls) /\
  zkOffsets zk' !! ("t", 0) = Some 52 /\
  lookupTracker zom' "t" 0 = None.
Proof.
  cbv zeta.
  destruct (Zom.InitializePartition (mkZk {[ ("t", 0) := 50 ]} [] [])
              Zom.NewZookeeperOffsetManager "t" 0) as [[zk1 zom1] r] eqn:Einit.
  pose proof (FinalizePartition_steps zk1
                (fst (Zom.MarkAsProcessed (fst (Zom.MarkAsConsumed zom1 "t" 0 52)) "t" 0 51))
                "t" 0 52 (2 * Second) false (mkTracker false 0 51 52 49)) as H.
  vm_compute in Einit. injection Einit as <- <- <-.
  specialize (H ltac:(vm_compute; reflexivity)).
  destruct (Zom.FinalizePartition _ _ "t" 0 52 (2 * Second) false)
    as [[[zk' zom'] calls] result] eqn:Efin.
  destruct H as (Hwait & _ & _ & Hcommit).
  split; [apply Hwait; split; [lia | reflexivity]|].
  destruct (Hcommit ltac:(lia)) as (t1 & t2 & err & -> & Ec & _ & _ & Hgone & _).
  vm_compute in Ec. injection Ec as <- <- <-.
  split; [reflexivity | apply Hgone; auto].
Defined.

(** C7, as stated, fails.  First, with the stored next offset 50 and the
    offset 50 acknowledged but no message delivered in this generation
    ([lastOffset] is -1), [FinalizePartition] neither waits nor commits:
    nothing is written, the tracker is dropped with the acknowledgement.
    Second, when the commit fails with an error of the coordination service,
    [FinalizePartition] returns that error and the tracker is still in the
    map. *)
Lemma FinalizePartition_no_commit_or_no_removal :
  let zom :=
    mkZom {[ "t" := {[ 0 := mkTracker false 0 50 49 49 ]} ]} false false in
  let zk := mkZk {[ ("t", 0) := 50 ]} [] [ZkFetchOffset "t" 0] in
  let zkFailing :=
    mkZk {[ ("t", 0) := 50 ]} [Some (ZkError "connection loss")] [ZkFetchOffset "t" 0] in
  Zom.MarkAsProcessed
    (snd (fst (Zom.InitializePartition (mkZk {[ ("t", 0) := 50 ]} [] [])
                 Zom.NewZookeeperOffsetManager "t" 0))) "t" 0 50
  = (zom, Returns None) /\
  Zom.FinalizePartition zk zom "t" 0 (-1) (2 * Second) false
  = (zk, mkZom {[ "t" := ∅ ]} false false, [], Returns None) /\
  (let '(zk', zom', calls, result) :=
     Zom.FinalizePartition zkFailing zom "t" 0 50 (2 * Second) false in
   calls = [CallCommitOffset (Some (ZkError "connection loss"))] /\
   result = Returns (Some (CommitFailed 50 49 (ZkError "connection loss"))) /\
   lookupTracker zom' "t" 0 = Some (mkTracker false 0 50 49 49)).
Proof.
  cbv zeta. split; [|split].
  - vm_compute. reflexivity.
  - vm_compute. reflexivity.
  - vm_compute. repeat split; reflexivity.
Qed.

(** *** Close *)

(** A tracker remains in the map exactly when some topic has a non-empty
    map of partitions. *)
Lemma tracker_remains_iff (offs : gmap string (gmap Z partitionOffsetTracker)) :
  (exists topic partition tracker,
     offs !! topic ≫= (fun po => po !! partition) = Some tracker) <->
  (exists topic po, offs !! topic = Some po /\ po <> ∅).
Proof.
  split.
  - intros (topic & partition & tracker & H).
    destruct (offs !! topic) as [po|] eqn:E; [|discriminate].
    exists topic, po. split; [exact E|]. cbn in H. intros ->.
    rewrite lookup_empty in H. discriminate.
  - intros (topic & po & E & Hne).
    destruct (map_choose po Hne) as (partition & tracker & H).
    exists topic, partition, tracker. rewrite E. exact H.
Qed.

(** The loop of [Close] ends with [UncleanClose] when some topic has a
    non-empty map, and with [nil] otherwise. *)
Lemma closeError_spec (offs : gmap string (gmap Z partitionOffsetTracker)) :
  (Zom.closeError offs = Some UncleanClose /\
   exists topic po, offs !! topic = Some po /\ po <> ∅) \/
  (Zom.closeError offs = None /\ forall topic po, offs !! topic = Some po -> po = ∅).
Proof.
  unfold Zom.closeError.
  apply (map_fold_weak_ind
    (fun r (m : gmap string (gmap Z partitionOffsetTracker)) =>
       (r = Some UncleanClose /\ exists topic po, m !! topic = Some po /\ po <> ∅) \/
       (r = None /\ forall topic po, m !! topic = Some po -> po = ∅))).
  - right. split; [reflexivity|]. intros topic po H.
    rewrite lookup_empty in H. discriminate.
  - intros topic po m r Hfresh IH.
    destruct (Z.ltb_spec 0 (Z.of_nat (size po))) as [Hsize|Hsize].
    + left. split; [reflexivity|]. exists topic, po.
      rewrite lookup_insert_eq. split; [reflexivity|].
      apply map_size_non_empty_iff. lia.
    + assert (po = ∅) as -> by (apply map_size_empty_iff; lia).
      destruct IH as [[-> (topic' & po' & E & Hne)] | [-> Hall]].
      * left. split; [reflexivity|]. exists topic', po'. split; [|exact Hne].
        rewrite lookup_insert_ne; [exact E|]. intros <-. congruence.
      * right. split; [reflexivity|]. intros topic' po'.
        destruct (decide (topic = topic')) as [<-|Hneq].
        -- rewrite lookup_insert_eq. congruence.
        -- rewrite lookup_insert_ne by exact Hneq. apply Hall.
Qed.

(** A round of commits changes trackers, not the set of partitions that
    have one. *)
Lemma commitTopic_lookup topic zk (po : gmap Z partitionOffsetTracker) partition :
  is_Some (snd (Zom.commitTopic topic zk po) !! partition) <-> is_Some (po !! partition).
Proof.
  unfold Zom.commitTopic. revert partition.
  apply (map_fold_weak_ind
    (fun (r : zookeeper * gmap Z partitionOffsetTracker)
         (m : gmap Z partitionOffsetTracker) =>
       forall partition, is_Some (snd r !! partition) <-> is_Some (m !! partition))).
  - intros partition. cbn. reflexivity.
  - intros i x m [zk1 acc] Hfresh IH partition.
    destruct (Zom.commitOffset zk1 topic i x) as [[tracker' zk2] err]. cbn in *.
    destruct (decide (i = partition)) as [->|Hneq].
    + rewrite !lookup_insert_eq. split; eauto.
    + rewrite !lookup_insert_ne by exact Hneq. apply IH.
Qed.

Lemma commitOffsets_lookup zk zom topic partition :
  is_Some (lookupTracker (snd (Zom.commitOffsets zk zom)) topic partition) <->
  is_Some (lookupTracker zom topic partition).
Proof.
  unfold Zom.commitOffsets, lookupTracker.
  generalize (offsets zom). intros offs. revert topic partition.
  apply (map_fold_weak_ind
    (fun (r : zookeeper * gmap string (gmap Z partitionOffsetTracker))
         (m : gmap string (gmap Z partitionOffsetTracker)) =>
       forall topic partition,
         is_Some (offsets (let '(zk', offs') := r in (zk', setOffsets offs' zom)).2
                    !! topic ≫= (fun po => po !! partition)) <->
         is_Some (m !! topic ≫= (fun po => po !! partition)))).
  - intros topic partition. cbn. rewrite !lookup_empty. reflexivity.
  - intros i po m [zk1 acc] Hfresh IH topic partition.
    pose proof (commitTopic_lookup i zk1 po partition) as Hpo.
    destruct (Zom.commitTopic i zk1 po) as [zk2 po']. cbn in *.
    destruct (decide (i = topic)) as [->|Hneq].
    + rewrite !lookup_insert_eq. cbn. exact Hpo.
    + rewrite !lookup_insert_ne by exact Hneq. apply IH.
Qed.

Lemma commitOffsets_channels zk zom :
  closing (snd (Zom.commitOffsets zk zom)) = closing zom /\
  closed (snd (Zom.commitOffsets zk zom)) = closed zom.
Proof.
  unfold Zom.commitOffsets. destruct (map_fold _ _ _) as [zk' offs]. split; reflexivity.
Qed.

Lemma offsetCommitter_spec ticks : forall zk zom,
  closing (snd (Zom.offsetCommitter ticks zk zom)) = closing zom /\
  closed (snd (Zom.offsetCommitter ticks zk zom)) = true /\
  forall topic partition,
    is_Some (lookupTracker (snd (Zom.offsetCommitter ticks zk zom)) topic partition) <->
    is_Some (lookupTracker zom topic partition).
Proof.
  induction ticks as [|n IH]; intros zk zom; cbn.
  - repeat split; auto.
  - pose proof (commitOffsets_channels zk zom) as [Hc1 Hc2].
    pose proof (commitOffsets_lookup zk zom) as Hl.
    destruct (Zom.commitOffsets zk zom) as [zk' zom']. cbn in *.
    destruct (IH zk' zom') as (H1 & H2 & H3).
    split; [congruence | split; [exact H2|]].
    intros topic partition. rewrite H3. apply Hl.
Qed.

End OffsetManager.

(** ** The consumer group *)

Section Group.

Implicit Types (cg : ConsumerGroup) (br : broker).
Implicit Types (topic : string) (partition : Z).

Lemma brokerRequest_calls call br :
  brCalls (fst (brokerRequest call br)) = brCalls br ++ [call].
Proof. unfold brokerRequest. destruct (brResponses br); reflexivity. Qed.

(** The offset the retry is made with. *)
Lemma retry_offset_policy cg :
  (configInitial cg = OffsetOldest ->
   (if configInitial cg =? OffsetOldest then OffsetOldest else OffsetNewest) = OffsetOldest) /\
  (configInitial cg <> OffsetOldest ->
   (if configInitial cg =? OffsetOldest then OffsetOldest else OffsetNewest) = OffsetNewest).
Proof.
  destruct (Z.eqb_spec (configInitial cg) OffsetOldest); split; congruence.
Qed.

(** The loop sends messages and errors and marks offsets as consumed; it
    makes no request to the broker. *)
Lemma partitionConsumerLoop_consumer topic partition events : forall lastOffset cg,
  consumer (fst (fst (Cg.partitionConsumerLoop topic partition events lastOffset cg)))
  = consumer cg.
Proof.
  induction events as [|[|err delivered|message delivered] events IH];
    intros lastOffset cg; cbn; try reflexivity.
  - destruct delivered; [|reflexivity]. rewrite IH. reflexivity.
  - destruct delivered; [|reflexivity].
    destruct message as [m|].
    + destruct (Zom.MarkAsConsumed _ topic partition (msgOffset m)) as [zom r].
      rewrite IH. reflexivity.
    + rewrite IH. reflexivity.
Qed.

(** After the partition was claimed and initialised, the requests
    [consumePartition] makes to open the partition consumer. *)
Lemma consumePartition_opened cg topic partition events doneBeforeTimeout zk2 zom2 br3 :
  let cg3 := setConsumer br3 (setKazoo zk2 (setOffsetManager zom2 cg)) in
  let '(cg', exit) :=
    match Cg.partitionConsumerLoop topic partition events (-1) cg3 with
    | (cg4, _, false) => (cg4, StillConsuming)
    | (cg4, lastOffset, true) =>
        let '(zk5, zom5, _, result) :=
          Zom.FinalizePartition (kazoo cg4) (offsetManager cg4) topic partition
            lastOffset (configProcessingTimeout cg4) doneBeforeTimeout in
        let br5 := PartitionConsumerClose (consumer cg4) topic partition in
        (setConsumer br5
           (setKazoo (ReleasePartition zk5 topic partition) (setOffsetManager zom5 cg4)),
         ExitFinalized result)
    end in
  List.filter isConsumePartitionCall (brCalls (consumer cg'))
  = List.filter isConsumePartitionCall (brCalls br3) /\
  consuming exit.
Proof.
  cbv zeta.
  pose proof (partitionConsumerLoop_consumer topic partition events (-1)
                (setConsumer br3 (setKazoo zk2 (setOffsetManager zom2 cg)))) as Hbr.
  destruct (Cg.partitionConsumerLoop topic partition events (-1) _)
    as [[cg4 lastOffset] [|]]; cbn in Hbr.
  - destruct (Zom.FinalizePartition _ _ topic partition lastOffset _ _)
      as [[[zk5 zom5] calls] result]. cbn.
    unfold PartitionConsumerClose. rewrite brokerRequest_calls, Hbr.
    rewrite List.filter_app. cbn. rewrite app_nil_r.
    split; [reflexivity | right; eauto].
  - rewrite Hbr. split; [reflexivity | left; reflexivity].
Qed.

(** C9: once the partition is claimed and initialised, [consumePartition]
    asks the broker for the partition at the start offset.  When that fails
    with [ErrOffsetOutOfRange] it asks once more, at [OffsetOldest] when the
    configured initial offset is [OffsetOldest] and at [OffsetNewest]
    otherwise, and whatever error that second request returns is final.
    When the first request fails with any other error it asks no more.
    After a final error [consumePartition] returns without having sent a
    message or an error. *)
Theorem consumePartition_open_retry cg topic partition events doneBeforeTimeout
    zk1 zk2 zom2 nextOffset :
  Cg.claimLoop (Z.to_nat (Z.quot (configProcessingTimeout cg) Second + 3))
               (kazoo cg) topic partition = (zk1, None) ->
  Zom.InitializePartition zk1 (offsetManager cg) topic partition
  = (zk2, zom2, (nextOffset, None)) ->
  let start := if 0 <=? nextOffset then nextOffset else configInitial cg in
  let policy := if configInitial cg =? OffsetOldest then OffsetOldest else OffsetNewest in
  let first := ConsumePartition (consumer cg) topic partition start in
  let second := ConsumePartition (fst first) topic partition policy in
  let '(cg', exit) :=
    Cg.consumePartition cg topic partition false events doneBeforeTimeout in
  let opens := List.filter isConsumePartitionCall (brCalls (consumer cg')) in
  let before := List.filter isConsumePartitionCall (brCalls (consumer cg)) in
  let terminal err :=
    exit = ExitOpen err /\ messages cg' = messages cg /\ errors cg' = errors cg in
  match snd first with
  | None => opens = before ++ [BrConsumePartition topic partition start] /\ consuming exit
  | Some ErrOffsetOutOfRange =>
      opens = before ++ [BrConsumePartition topic partition start;
                         BrConsumePartition topic partition policy] /\
      match snd second with
      | None => consuming exit
      | Some err => terminal err
      end
  | Some err => opens = before ++ [BrConsumePartition topic partition start] /\ terminal err
  end.
Proof.
  intros Hclaim Hinit. cbv zeta. unfold Cg.consumePartition.
  rewrite Hclaim, Hinit. unfold Cg.openPartition, Cg.startOffset. cbn [consumer configInitial setKazoo setOffsetManager].
  unfold ConsumePartition.
  set (start := if 0 <=? nextOffset then nextOffset else configInitial cg).
  set (policy := if configInitial cg =? OffsetOldest then OffsetOldest else OffsetNewest).
  pose proof (brokerRequest_calls (BrConsumePartition topic partition start) (consumer cg))
    as Hfirst.
  destruct (brokerRequest (BrConsumePartition topic partition start) (consumer cg))
    as [br1 [e|]]; cbn [fst snd] in *.
  - destruct (isErrOffsetOutOfRange e) eqn:Eoor.
    + assert (e = ErrOffsetOutOfRange) as -> by (destruct e; cbn in Eoor; congruence).
      pose proof (brokerRequest_calls (BrConsumePartition topic partition policy) br1)
        as Hsecond.
      destruct (brokerRequest (BrConsumePartition topic partition policy) br1)
        as [br2 [e2|]]; cbn [fst snd] in *.
      * cbn. rewrite Hsecond, Hfirst, <- app_assoc, List.filter_app. cbn. auto.
      * pose proof (consumePartition_opened cg topic partition events doneBeforeTimeout
                      zk2 zom2 br2) as Hopened. cbv zeta in Hopened.
        destruct (match Cg.partitionConsumerLoop topic partition events (-1) _ with
                  | (cg4, _, true) => _ | (cg4, _, false) => _ end) as [cg' exit].
        destruct Hopened as [-> Hexit]. rewrite Hsecond, Hfirst, <- app_assoc, List.filter_app.
        cbn. auto.
    + assert (opens_once :
        List.filter isConsumePartitionCall (brCalls br1)
        = List.filter isConsumePartitionCall (brCalls (consumer cg))
          ++ [BrConsumePartition topic partition start])
        by (rewrite Hfirst, List.filter_app; reflexivity).
      destruct e; try discriminate Eoor; cbn; auto.
  - pose proof (consumePartition_opened cg topic partition events doneBeforeTimeout
                  zk2 zom2 br1) as Hopened. cbv zeta in Hopened.
    destruct (match Cg.partitionConsumerLoop topic partition events (-1) _ with
              | (cg4, _, true) => _ | (cg4, _, false) => _ end) as [cg' exit].
    destruct Hopened as [-> Hexit]. rewrite Hfirst, List.filter_app. cbn. auto.
Qed.

Lemma consumePartition_open_retry_witness :
  let cg := exampleGroup [Some ErrOffsetOutOfRange] in
  let '(cg', exit) := Cg.consumePartition cg "t" 0 false [EvStop] false in
  List.filter isConsumePartitionCall (brCalls (consumer cg'))
  = [BrConsumePartition "t" 0 1000; BrConsumePartition "t" 0 OffsetNewest] /\
  consuming exit.
Proof.
  cbv zeta.
  unshelve epose proof
    (consumePartition_open_retry (exampleGroup [Some ErrOffsetOutOfRange])
       "t" 0 [EvStop] false
       (mkZk {[ ("t", 0) := 1000 ]} [] [ZkClaimPartition "t" 0])
       (mkZk {[ ("t", 0) := 1000 ]} [] [ZkClaimPartition "t" 0; ZkFetchOffset "t" 0])
       (mkZom {[ "t" := {[ 0 := newTracker 1000 ]} ]} false false)
       1000 _ _) as H; [vm_compute; reflexivity | vm_compute; reflexivity |].
  cbv zeta in H.
  destruct (Cg.consumePartition (exampleGroup [Some ErrOffsetOutOfRange]) "t" 0 false
              [EvStop] false) as [cg' exit].
  exact H.
Defined.

(** The happy path of one partition: nothing is stored for [t/0], the
    messages 0 to 9 are delivered and the last one is acknowledged; the next
    round of commits writes 10, and a second round has nothing to write. *)
Example commit_round_writes_next_offset :
  let cg0 :=
    mkCg OffsetOldest (2 * Second) (mkBroker [] []) (mkZk ∅ [] [])
         true false [] false [] false false Zom.NewZookeeperOffsetManager in
  let delivered :=
    map (fun offset => EvMessage (Some (mkMessage "t" 0 offset)) true) (seqZ 0 10) in
  let '(cg1, exit) := Cg.consumePartition cg0 "t" 0 false delivered false in
  let '(cg2, acknowledged) := Cg.CommitUpto cg1 (mkMessage "t" 0 9) in
  let '(zk3, zom3) := Zom.commitOffsets (kazoo cg2) (offsetManager cg2) in
  let '(zk4, zom4) := Zom.commitOffsets zk3 zom3 in
  exit = StillConsuming /\
  brCalls (consumer cg1) = [BrConsumePartition "t" 0 OffsetOldest] /\
  length (messages cg1) = 10%nat /\
  acknowledged = Returns None /\
  lookupTracker zom3 "t" 0 = Some (mkTracker false 0 9 9 9) /\
  zkOffsets zk3 !! ("t", 0) = Some 10 /\
  zkCalls zk4 = [ZkClaimPartition "t" 0; ZkFetchOffset "t" 0; ZkCommitOffset "t" 0 10].
Proof. vm_compute. repeat split; reflexivity. Qed.

(** C10: in a first [Close] of the group, when [Deregister] fails and
    closing the Sarama consumer succeeds, [Close] returns [nil]: the error
    of [Deregister], which was requested, is overwritten.  Whatever
    [Deregister] returns, [Close] returns what closing the consumer
    returns. *)
Theorem Close_discards_deregister_error ticks cg err :
  singleShutdown cg = false ->
  closing (offsetManager cg) = false ->
  let zk1 := fst (fst (Zom.Close ticks (kazoo cg) (offsetManager cg))) in
  snd (Deregister zk1) = Some err ->
  snd (ConsumerClose (consumer cg)) = None ->
  let '(cg', result) := Cg.Close ticks cg in
  result = Returns None /\
  ZkDeregister ∈ zkCalls (kazoo cg') /\
  Cg.Closed cg' = true.
Proof.
  intros Honce Hopen zk1 Hderegister Hconsumer. subst zk1.
  unfold Cg.Close. rewrite Honce.
  unfold Zom.Close in *. rewrite Hopen in *.
  destruct (Zom.offsetCommitter ticks (kazoo cg) _) as [zk1 zom1]. cbn [fst snd] in *.
  pose proof (zkRequest_calls ZkDeregister zk1) as Hcalls. unfold Deregister in *.
  destruct (zkRequest ZkDeregister zk1) as [zk2 shutdownError]. cbn [fst snd] in *.
  destruct (ConsumerClose (consumer cg)) as [br1 shutdownError']. cbn [fst snd] in *.
  subst. cbn. split; [reflexivity | split; [|reflexivity]].
  unfold zkClose. rewrite zkRequest_calls, Hcalls. set_solver.
Qed.

Lemma Close_discards_deregister_error_witness :
  let cg :=
    mkCg OffsetNewest (2 * Second) (mkBroker [] [])
         (mkZk ∅ [Some (ZkError "session expired")] [])
         true false [] false [] false false Zom.NewZookeeperOffsetManager in
  snd (Deregister (kazoo cg)) = Some (ZkError "session expired") /\
  snd (Cg.Close 0 cg) = Returns None.
Proof.
  cbv zeta. split; [reflexivity|].
  pose proof (Close_discards_deregister_error 0
    (mkCg OffsetNewest (2 * Second) (mkBroker [] [])
          (mkZk ∅ [Some (ZkError "session expired")] [])
          true false [] false [] false false Zom.NewZookeeperOffsetManager)
    (ZkError "session expired") eq_refl eq_refl eq_refl eq_refl) as H.
  destruct (Cg.Close 0 _) as [cg' result]. destruct H as [-> _]. reflexivity.
Defined.

End Group.

(** * Further properties of the code *)

(** ** The tracker over time *)

Section TrackerHistory.

Implicit Types (pot : partitionOffsetTracker) (offset : Z).

Lemma applyOp_monotone pot op :
  highestMarkedAsProcessedOffset pot <= highestMarkedAsProcessedOffset (applyOp pot op) /\
  (lastCommittedOffset pot <= highestMarkedAsProcessedOffset pot ->
   lastCommittedOffset pot <= lastCommittedOffset (applyOp pot op)).
Proof.
  destruct op as [o|o|r|o t d]; cbn.
  - split; intros; lia.
  - destruct (markAsProcessed_cases pot o)
      as [[_ E] | [(_ & Hup & Hh & _ & Hc & _) | (_ & _ & E)]];
      rewrite ?E; cbn; split; intros; lia.
  - unfold commit.
    destruct (Z.ltb_spec (lastCommittedOffset pot) (highestMarkedAsProcessedOffset pot));
      [destruct r|]; cbn; split; intros; lia.
  - unfold waitForOffset.
    destruct (highestMarkedAsProcessedOffset pot <? o); cbn; split; intros; lia.
Qed.

(** X1: whatever operations reach a tracker, in whatever order and with
    whatever offsets, [highestMarkedAsProcessedOffset] never decreases, and
    from a state where [lastCommittedOffset] is not above it,
    [lastCommittedOffset] never decreases either. *)
Theorem runOps_offsets_never_decrease ops : forall pot,
  highestMarkedAsProcessedOffset pot <= highestMarkedAsProcessedOffset (runOps ops pot) /\
  (lastCommittedOffset pot <= highestMarkedAsProcessedOffset pot ->
   lastCommittedOffset pot <= lastCommittedOffset (runOps ops pot)).
Proof.
  induction ops as [|op ops IH]; intros pot; cbn; [split; intros; lia|].
  destruct (applyOp_monotone pot op) as [Hh Hc].
  destruct (IH (applyOp pot op)) as [IHh IHc].
  split; [unfold runOps in *; lia|].
  intros Hinv.
  pose proof (applyOp_committed_le_highest pot op Hinv).
  unfold runOps in *. specialize (Hc Hinv). specialize (IHc ltac:(assumption)). lia.
Qed.

(** X2: [markAsProcessed] closes [done] only when the offset it accepts is
    exactly the awaited one.  After [waitForOffset x] had to wait, an
    accepted [markAsProcessed y] returns [nil] and closes [done] when
    [y = x]; when it jumps over [x] the processed offset is then at or above
    the awaited one and [done] stays open. *)
Theorem markAsProcessed_signals_only_awaited pot x y timeout doneBeforeTimeout :
  done pot = false ->
  highestMarkedAsProcessedOffset pot < x ->
  highestMarkedAsProcessedOffset pot < y ->
  y <= Int64.add (lastConsumedOffset pot) 1 ->
  let pot1 := fst (waitForOffset pot x timeout doneBeforeTimeout) in
  let '(pot2, result) := markAsProcessed pot1 y in
  waitingForOffset pot1 = x /\
  result = Returns None /\
  highestMarkedAsProcessedOffset pot2 = y /\
  (done pot2 = true <-> y = x).
Proof.
  intros Hopen Hx Hy Hle. unfold waitForOffset, markAsProcessed.
  destruct (Z.ltb_spec (highestMarkedAsProcessedOffset pot) x); [|lia]. cbn.
  destruct (Z.ltb_spec (Int64.add (lastConsumedOffset pot) 1) y); [lia|].
  destruct (Z.ltb_spec (highestMarkedAsProcessedOffset pot) y); [|lia].
  rewrite Hopen. destruct (Z.eqb_spec x y) as [->|Hne]; cbn.
  - repeat split; auto.
  - repeat split; auto; intros; congruence.
Qed.

Lemma markAsProcessed_signals_only_awaited_witness :
  let pot1 := fst (waitForOffset (mkTracker false 0 49 53 49) 52 2000000000 false) in
  done (fst (markAsProcessed pot1 52)) = true /\
  done (fst (markAsProcessed pot1 53)) = false /\
  highestMarkedAsProcessedOffset (fst (markAsProcessed pot1 53)) = 53.
Proof.
  cbv zeta.
  pose proof (markAsProcessed_signals_only_awaited (mkTracker false 0 49 53 49) 52 52
                2000000000 false eq_refl eq_refl eq_refl ltac:(vm_compute; discriminate))
    as H52.
  pose proof (markAsProcessed_signals_only_awaited (mkTracker false 0 49 53 49) 52 53
                2000000000 false eq_refl eq_refl eq_refl ltac:(vm_compute; discriminate))
    as H53.
  cbv zeta in H52, H53.
  destruct (markAsProcessed _ 52) as [p52 r52]. destruct (markAsProcessed _ 53) as [p53 r53].
  destruct H52 as (_ & _ & _ & H52). destruct H53 as (_ & _ & Hh & H53).
  cbn [fst]. split; [apply H52; reflexivity | split; [|exact Hh]].
  destruct (done p53); [|reflexivity]. destruct H53 as [H53 _].
  specialize (H53 eq_refl). discriminate.
Defined.

(** X3: a tracker that was never waited on has [waitingForOffset] 0, so its
    first accepted [markAsProcessed 0] closes [done] although nobody waits;
    when [waitForOffset x] then has to wait, the accepted [markAsProcessed x]
    closes [done] a second time and panics, after
    [highestMarkedAsProcessedOffset] was written. *)
Theorem markAsProcessed_zero_then_awaited_panics pot x timeout doneBeforeTimeout :
  waitingForOffset pot = 0 ->
  done pot = false ->
  highestMarkedAsProcessedOffset pot < 0 ->
  0 < x <= Int64.add (lastConsumedOffset pot) 1 ->
  let '(pot1, first) := markAsProcessed pot 0 in
  let pot2 := fst (waitForOffset pot1 x timeout doneBeforeTimeout) in
  let '(pot3, second) := markAsProcessed pot2 x in
  first = Returns None /\ done pot1 = true /\
  second = Panics "close of closed channel" /\
  highestMarkedAsProcessedOffset pot3 = x.
Proof.
  intros Hw Hopen Hh Hx. unfold markAsProcessed at 1.
  destruct (Z.ltb_spec (Int64.add (lastConsumedOffset pot) 1) 0); [lia|].
  destruct (Z.ltb_spec (highestMarkedAsProcessedOffset pot) 0); [|lia].
  cbn. rewrite Hw, Hopen. cbn.
  unfold waitForOffset; cbn.
  destruct (Z.ltb_spec 0 x); [|lia]. cbn.
  unfold markAsProcessed; cbn.
  destruct (Z.ltb_spec (Int64.add (lastConsumedOffset pot) 1) x); [lia|].
  destruct (Z.ltb_spec 0 x); [|lia].
  rewrite Z.eqb_refl. auto.
Qed.

Lemma markAsProcessed_zero_then_awaited_panics_witness :
  let pot := setLastConsumedOffset 5 (newTracker 0) in
  snd (markAsProcessed
         (fst (waitForOffset (fst (markAsProcessed pot 0)) 5 2000000000 true)) 5)
  = Panics "close of closed channel".
Proof.
  cbv zeta.
  pose proof (markAsProcessed_zero_then_awaited_panics
                (setLastConsumedOffset 5 (newTracker 0)) 5 2000000000 true
                eq_refl eq_refl eq_refl ltac:(vm_compute; split; [reflexivity|discriminate]))
    as H.
  destruct (markAsProcessed (setLastConsumedOffset 5 (newTracker 0)) 0) as [pot1 first].
  cbv zeta in H. cbn [fst].
  destruct (markAsProcessed _ 5) as [pot3 second].
  destruct H as (_ & _ & H & _). exact H.
Defined.

(** X4: after a [commit] that returned [nil], the next [commit] returns
    [NoOffsetToCommit] without calling its committer, whatever that
    committer is, and leaves the tracker as it is. *)
Theorem commit_twice_nothing_to_commit {W : Type} pot pot1
    (committer committer' : offsetCommitter W) (w w1 : W) :
  commit pot committer w = (pot1, w1, None) ->
  commit pot1 (recording committer') ([], w1) = (pot1, ([], w1), Some NoOffsetToCommit).
Proof.
  unfold commit at 1.
  destruct (Z.ltb_spec (lastCommittedOffset pot) (highestMarkedAsProcessedOffset pot)).
  - destruct (committer (highestMarkedAsProcessedOffset pot) w) as [w' [e|]];
      [discriminate|].
    intros [= <- <-]. unfold commit; cbn. rewrite Z.ltb_irrefl. reflexivity.
  - discriminate.
Qed.

Lemma commit_twice_nothing_to_commit_witness :
  commit (mkTracker false 0 7 9 7) (recording (fun _ (w : unit) => (w, None))) ([], tt)
  = (mkTracker false 0 7 9 7, ([], tt), Some NoOffsetToCommit).
Proof.
  apply (commit_twice_nothing_to_commit (mkTracker false 0 7 9 3) _
           (fun _ w => (w, None)) (fun _ w => (w, None)) tt tt).
  reflexivity.
Defined.

End TrackerHistory.

(** ** The offset manager, one partition among others *)

Section OffsetManagerPartitions.

Implicit Types (zk : zookeeper) (zom : zookeeperOffsetManager).
Implicit Types (topic : string) (partition : Z).

Lemma lookupTracker_storeTracker_ne zom topic partition tracker topic' partition' :
  (topic', partition') <> (topic, partition) ->
  lookupTracker (storeTracker topic partition tracker zom) topic' partition'
  = lookupTracker zom topic' partition'.
Proof.
  intros Hne. unfold lookupTracker, storeTracker; cbn. rewrite lookup_alter.
  destruct (decide (topic = topic')) as [<-|]; [|reflexivity].
  destruct (offsets zom !! topic) as [po|]; cbn; [|reflexivity].
  apply lookup_insert_ne. congruence.
Qed.

Lemma lookupTracker_deleteTracker_ne zom topic partition topic' partition' :
  (topic', partition') <> (topic, partition) ->
  lookupTracker (deleteTracker topic partition zom) topic' partition'
  = lookupTracker zom topic' partition'.
Proof.
  intros Hne. unfold lookupTracker, deleteTracker; cbn. rewrite lookup_alter.
  destruct (decide (topic = topic')) as [<-|]; [|reflexivity].
  destruct (offsets zom !! topic) as [po|]; cbn; [|reflexivity].
  apply lookup_delete_ne. congruence.
Qed.

(** A write of the committer that succeeds is in the node. *)
Lemma zkCommitter_healthy_write zk topic partition offset :
  0 <= offset ->
  snd (Zom.zkCommitter topic partition offset zk) = None ->
  zkOffsets (fst (Zom.zkCommitter topic partition offset zk)) !! (topic, partition)
  = Some (Int64.add offset 1).
Proof.
  intros Hpos. unfold Zom.zkCommitter.
  destruct (Z.leb_spec 0 offset); [|lia].
  pose proof (CommitOffset_offsets zk topic partition (Int64.add offset 1)) as Hstored.
  destruct (CommitOffset zk topic partition (Int64.add offset 1)) as [zk' [e|]];
    cbn in *; [discriminate|].
  intros _. rewrite Hstored. apply lookup_insert_eq.
Qed.

(** What [InitializePartition] does to the trackers of the map. *)
Lemma InitializePartition_lookup zk zom topic partition topic' partition' :
  lookupTracker (snd (fst (Zom.InitializePartition zk zom topic partition)))
                topic' partition'
  = match snd (snd (FetchOffset zk topic partition)) with
    | Some _ => lookupTracker zom topic' partition'
    | None =>
        if decide ((topic', partition') = (topic, partition))
        then Some (newTracker (fst (snd (FetchOffset zk topic partition))))
        else lookupTracker zom topic' partition'
    end.
Proof.
  unfold Zom.InitializePartition.
  set (offs := match offsets zom !! topic with
               | Some _ => offsets zom
               | None => <[topic:=∅]> (offsets zom)
               end).
  assert (forall t p, offs !! t ≫= (fun po => po !! p) = lookupTracker zom t p) as Hoffs.
  { intros t p. unfold lookupTracker. subst offs.
    destruct (offsets zom !! topic) as [po|] eqn:E; [reflexivity|].
    destruct (decide (topic = t)) as [<-|Hne].
    - rewrite lookup_insert_eq, E. cbn. apply lookup_empty.
    - rewrite lookup_insert_ne by exact Hne. reflexivity. }
  assert (is_Some (offs !! topic)) as [po Hpo].
  { subst offs. destruct (offsets zom !! topic) eqn:E; [rewrite E; eauto|].
    rewrite lookup_insert_eq. eauto. }
  destruct (FetchOffset zk topic partition) as [zk' [nextOffset [e|]]]; cbn.
  - apply Hoffs.
  - unfold lookupTracker; cbn. rewrite lookup_alter.
    destruct (decide ((topic', partition') = (topic, partition))) as [[= -> ->]|Hne].
    + rewrite decide_True by reflexivity. rewrite Hpo. cbn. apply lookup_insert_eq.
    + destruct (decide (topic = topic')) as [<-|Hnt]; [|apply Hoffs].
      unfold lookupTracker in Hoffs. rewrite <- (Hoffs topic partition'), Hpo. cbn.
      apply lookup_insert_ne. congruence.
Qed.

(** When [FinalizePartition] returns [nil] the partition has no tracker. *)
Lemma FinalizePartition_nil_removed zk zom topic partition lastOffset timeout
    doneBeforeTimeout :
  snd (Zom.FinalizePartition zk zom topic partition lastOffset timeout doneBeforeTimeout)
  = Returns None ->
  lookupTracker
    (snd (fst (fst (Zom.FinalizePartition zk zom topic partition lastOffset timeout
                      doneBeforeTimeout)))) topic partition = None.
Proof.
  unfold Zom.FinalizePartition.
  destruct (0 <=? lastOffset); [|intros _; apply lookupTracker_deleteTracker].
  destruct (lookupTracker zom topic partition) as [tracker|]; [|discriminate].
  destruct (0 <? Int64.sub lastOffset (highestMarkedAsProcessedOffset tracker)).
  - destruct (waitForOffset tracker lastOffset timeout doneBeforeTimeout) as [t1 reached].
    destruct (Zom.commitOffset zk topic partition t1) as [[t2 zk2] [e|]];
      [destruct (isNoOffsetToCommit e)|]; cbn;
      solve [discriminate | intros _; apply lookupTracker_deleteTracker].
  - destruct (Zom.commitOffset zk topic partition tracker) as [[t2 zk2] [e|]];
      [destruct (isNoOffsetToCommit e)|]; cbn;
      solve [discriminate | intros _; apply lookupTracker_deleteTracker].
Qed.

(** X5: once [FinalizePartition] has returned [nil] for a partition,
    [MarkAsProcessed], [MarkAsConsumed] and [CommitUpto] for that partition
    return [TopicPartitionNotFound] and change nothing. *)
Theorem finalized_partition_not_found zk zom topic partition lastOffset timeout
    doneBeforeTimeout zk' zom' calls offset :
  Zom.FinalizePartition zk zom topic partition lastOffset timeout doneBeforeTimeout
  = (zk', zom', calls, Returns None) ->
  Zom.MarkAsProcessed zom' topic partition offset
  = (zom', Returns (Some TopicPartitionNotFound)) /\
  Zom.MarkAsConsumed zom' topic partition offset = (zom', Some TopicPartitionNotFound) /\
  forall cg,
    offsetManager cg = zom' ->
    Cg.CommitUpto cg (mkMessage topic partition offset)
    = (cg, Returns (Some TopicPartitionNotFound)).
Proof.
  intros Hfin.
  pose proof (FinalizePartition_nil_removed zk zom topic partition lastOffset timeout
                doneBeforeTimeout) as Hgone.
  rewrite Hfin in Hgone. cbn in Hgone. specialize (Hgone eq_refl).
  unfold Zom.MarkAsProcessed, Zom.MarkAsConsumed, Cg.CommitUpto, Zom.MarkAsProcessed.
  rewrite Hgone. repeat split.
  intros cg Hzom. cbn. rewrite Hzom, Hgone. rewrite <- Hzom.
  destruct cg; reflexivity.
Qed.

Lemma finalized_partition_not_found_witness :
  let zom := mkZom {[ "t" := {[ 0 := mkTracker false 0 51 52 49 ]} ]} false false in
  let zom' :=
    snd (fst (fst (Zom.FinalizePartition (mkZk ∅ [] []) zom "t" 0 52 (2 * Second) false))) in
  Zom.MarkAsProcessed zom' "t" 0 52 = (zom', Returns (Some TopicPartitionNotFound)).
Proof.
  cbv zeta.
  destruct (Zom.FinalizePartition (mkZk ∅ [] [])
              (mkZom {[ "t" := {[ 0 := mkTracker false 0 51 52 49 ]} ]} false false)
              "t" 0 52 (2 * Second) false) as [[[zk' zom'] calls] result] eqn:E.
  assert (result = Returns None) as -> by (vm_compute in E; congruence).
  cbn [fst snd].
  exact (proj1 (finalized_partition_not_found _ _ _ _ _ _ _ _ _ _ 52 E)).
Defined.

(** Operations on one partition and the trackers of the others. *)
Lemma MarkAsProcessed_frame zom topic partition topic' partition' offset :
  (topic', partition') <> (topic, partition) ->
  lookupTracker (fst (Zom.MarkAsProcessed zom topic partition offset)) topic' partition'
  = lookupTracker zom topic' partition'.
Proof.
  intros Hne. unfold Zom.MarkAsProcessed.
  destruct (lookupTracker zom topic partition) as [p|]; [|reflexivity].
  destruct (markAsProcessed p offset) as [p' r]. cbn.
  apply lookupTracker_storeTracker_ne, Hne.
Qed.

Lemma MarkAsConsumed_frame zom topic partition topic' partition' offset :
  (topic', partition') <> (topic, partition) ->
  lookupTracker (fst (Zom.MarkAsConsumed zom topic partition offset)) topic' partition'
  = lookupTracker zom topic' partition'.
Proof.
  intros Hne. unfold Zom.MarkAsConsumed.
  destruct (lookupTracker zom topic partition) as [p|]; [|reflexivity].
  apply lookupTracker_storeTracker_ne, Hne.
Qed.

Lemma InitializePartition_frame zk zom topic partition topic' partition' :
  (topic', partition') <> (topic, partition) ->
  lookupTracker (snd (fst (Zom.InitializePartition zk zom topic partition)))
                topic' partition'
  = lookupTracker zom topic' partition'.
Proof.
  intros Hne. rewrite InitializePartition_lookup.
  destruct (snd (snd (FetchOffset zk topic partition))); [reflexivity|].
  rewrite decide_False by exact Hne. reflexivity.
Qed.

Lemma FinalizePartition_frame zk zom topic partition topic' partition' lastOffset
    timeout doneBeforeTimeout :
  (topic', partition') <> (topic, partition) ->
  lookupTracker
    (snd (fst (fst (Zom.FinalizePartition zk zom topic partition lastOffset timeout
                      doneBeforeTimeout)))) topic' partition'
  = lookupTracker zom topic' partition'.
Proof.
  intros Hne. unfold Zom.FinalizePartition.
  destruct (0 <=? lastOffset); [|apply lookupTracker_deleteTracker_ne, Hne].
  destruct (lookupTracker zom topic partition) as [tracker|]; [|reflexivity].
  destruct (0 <? Int64.sub lastOffset (highestMarkedAsProcessedOffset tracker)).
  - destruct (waitForOffset tracker lastOffset timeout doneBeforeTimeout) as [t1 reached].
    destruct (Zom.commitOffset zk topic partition t1) as [[t2 zk2] [e|]];
      [destruct (isNoOffsetToCommit e)|]; cbn;
      rewrite ?lookupTracker_deleteTracker_ne by exact Hne;
      apply lookupTracker_storeTracker_ne, Hne.
  - destruct (Zom.commitOffset zk topic partition tracker) as [[t2 zk2] [e|]];
      [destruct (isNoOffsetToCommit e)|]; cbn;
      rewrite ?lookupTracker_deleteTracker_ne by exact Hne;
      apply lookupTracker_storeTracker_ne, Hne.
Qed.

(** X6: the operations on one partition leave the tracker of every other
    partition, of the same topic or of another, as it is. *)
Theorem other_partitions_untouched zk zom topic partition topic' partition'
    offset lastOffset timeout doneBeforeTimeout :
  (topic', partition') <> (topic, partition) ->
  lookupTracker (fst (Zom.MarkAsProcessed zom topic partition offset)) topic' partition'
  = lookupTracker zom topic' partition' /\
  lookupTracker (fst (Zom.MarkAsConsumed zom topic partition offset)) topic' partition'
  = lookupTracker zom topic' partition' /\
  lookupTracker (snd (fst (Zom.InitializePartition zk zom topic partition)))
                topic' partition'
  = lookupTracker zom topic' partition' /\
  lookupTracker
    (snd (fst (fst (Zom.FinalizePartition zk zom topic partition lastOffset timeout
                      doneBeforeTimeout)))) topic' partition'
  = lookupTracker zom topic' partition'.
Proof.
  intros Hne. split; [|split; [|split]].
  - apply MarkAsProcessed_frame, Hne.
  - apply MarkAsConsumed_frame, Hne.
  - apply InitializePartition_frame, Hne.
  - apply FinalizePartition_frame, Hne.
Qed.

Lemma other_partitions_untouched_witness :
  let zom :=
    mkZom {[ "t" := {[ 0 := mkTracker false 0 51 52 49; 1 := mkTracker false 0 7 7 7 ]} ]}
          false false in
  lookupTracker
    (snd (fst (fst (Zom.FinalizePartition (mkZk ∅ [] []) zom "t" 0 52 (2 * Second) false))))
    "t" 1
  = lookupTracker zom "t" 1.
Proof.
  cbv zeta.
  unshelve epose proof
    (other_partitions_untouched (mkZk ∅ [] [])
       (mkZom {[ "t" := {[ 0 := mkTracker false 0 51 52 49; 1 := mkTracker false 0 7 7 7 ]} ]}
              false false)
       "t" 0 "t" 1 0 52 (2 * Second) false _) as H; [discriminate|].
  exact (proj2 (proj2 (proj2 H))).
Defined.

(** X7: [FinalizePartition] for a partition that has no tracker makes no
    request and changes no tracker; with [lastOffset >= 0] it panics on the
    nil tracker, with [lastOffset < 0] it returns [nil]. *)
Theorem FinalizePartition_without_tracker zk zom topic partition lastOffset timeout
    doneBeforeTimeout :
  lookupTracker zom topic partition = None ->
  let '(zk', zom', calls, result) :=
    Zom.FinalizePartition zk zom topic partition lastOffset timeout doneBeforeTimeout in
  zk' = zk /\ calls = [] /\
  (forall topic' partition',
     lookupTracker zom' topic' partition' = lookupTracker zom topic' partition') /\
  (0 <= lastOffset -> exists msg, result = Panics msg) /\
  (lastOffset < 0 -> result = Returns None).
Proof.
  intros Hnone. unfold Zom.FinalizePartition.
  destruct (Z.leb_spec 0 lastOffset) as [Hpos|Hneg].
  - rewrite Hnone. repeat split; eauto. lia.
  - repeat split; try lia.
    intros topic' partition'.
    destruct (decide ((topic', partition') = (topic, partition))) as [[= -> ->]|Hne].
    + rewrite lookupTracker_deleteTracker, Hnone. reflexivity.
    + apply lookupTracker_deleteTracker_ne, Hne.
Qed.

Lemma FinalizePartition_without_tracker_witness :
  exists msg,
    snd (Zom.FinalizePartition (mkZk ∅ [] []) Zom.NewZookeeperOffsetManager "t" 0 5
           (2 * Second) false) = Panics msg.
Proof.
  pose proof (FinalizePartition_without_tracker (mkZk ∅ [] [])
                Zom.NewZookeeperOffsetManager "t" 0 5 (2 * Second) false eq_refl) as H.
  destruct (Zom.FinalizePartition _ _ "t" 0 5 _ _) as [[[zk' zom'] calls] result].
  destruct H as (_ & _ & _ & H & _). cbn [snd]. apply H. lia.
Defined.

(** X8: when the fetch of the stored offset fails, [InitializePartition]
    returns offset 0 with the error of the fetch, after that one request,
    and no tracker is installed, replaced or removed. *)
Theorem InitializePartition_fetch_fails zk zom topic partition err :
  snd (zkRequest (ZkFetchOffset topic partition) zk) = Some err ->
  let '(zk', zom', result) := Zom.InitializePartition zk zom topic partition in
  result = (0, Some err) /\
  zkCalls zk' = zkCalls zk ++ [ZkFetchOffset topic partition] /\
  zkOffsets zk' = zkOffsets zk /\
  forall topic' partition',
    lookupTracker zom' topic' partition' = lookupTracker zom topic' partition'.
Proof.
  intros Hfail.
  pose proof (InitializePartition_lookup zk zom topic partition) as Hlook.
  pose proof (zkRequest_calls (ZkFetchOffset topic partition) zk) as Hcalls.
  pose proof (zkRequest_offsets (ZkFetchOffset topic partition) zk) as Hoffs.
  unfold Zom.InitializePartition, FetchOffset in *.
  destruct (zkRequest (ZkFetchOffset topic partition) zk) as [zk' [e|]];
    [|discriminate].
  cbn in *. injection Hfail as ->.
  repeat split; auto.
Qed.

Lemma InitializePartition_fetch_fails_witness :
  let zom := mkZom {[ "t" := {[ 0 := mkTracker false 0 51 52 49 ]} ]} false false in
  let '(zk', zom', result) :=
    Zom.InitializePartition (mkZk ∅ [Some (ZkError "connection loss")] []) zom "t" 0 in
  result = (0, Some (ZkError "connection loss")) /\
  lookupTracker zom' "t" 0 = Some (mkTracker false 0 51 52 49).
Proof.
  cbv zeta.
  pose proof (InitializePartition_fetch_fails
    (mkZk ∅ [Some (ZkError "connection loss")] [])
    (mkZom {[ "t" := {[ 0 := mkTracker false 0 51 52 49 ]} ]} false false)
    "t" 0 (ZkError "connection loss") eq_refl) as H.
  destruct (Zom.InitializePartition _ _ "t" 0) as [[zk' zom'] result].
  destruct H as (Hr & _ & _ & Hl). split; [exact Hr|].
  rewrite Hl. vm_compute. reflexivity.
Defined.

(** What a first [Close] returns: [UncleanClose] with a tracker in the map,
    [nil] with none. *)
Lemma Close_result_cases ticks zk zom :
  closing zom = false ->
  (snd (Zom.Close ticks zk zom) = Returns (Some UncleanClose) /\
   exists topic partition tracker, lookupTracker zom topic partition = Some tracker) \/
  (snd (Zom.Close ticks zk zom) = Returns None /\
   forall topic partition, lookupTracker zom topic partition = None).
Proof.
  intros Hopen. unfold Zom.Close. rewrite Hopen.
  pose proof (offsetCommitter_spec ticks zk (mkZom (offsets zom) true (closed zom)))
    as (_ & _ & Hsame).
  destruct (Zom.offsetCommitter ticks zk (mkZom (offsets zom) true (closed zom)))
    as [zk' zom']. cbn in Hsame |- *.
  destruct (closeError_spec (offsets zom')) as [[-> Hex] | [-> Hall]].
  - left. split; [reflexivity|].
    apply tracker_remains_iff in Hex as (topic & partition & tracker & H).
    destruct (proj1 (Hsame topic partition)) as [tracker' H'];
      [unfold lookupTracker; rewrite H; eauto|].
    exists topic, partition, tracker'. exact H'.
  - right. split; [reflexivity|]. intros topic partition.
    destruct (lookupTracker zom topic partition) as [tracker|] eqn:E; [|reflexivity].
    destruct (proj2 (Hsame topic partition)) as [tracker' H']; [eauto|].
    unfold lookupTracker in H'.
    destruct (offsets zom' !! topic) as [po|] eqn:Epo; [|discriminate].
    rewrite (Hall topic po Epo) in H'. cbn in H'. rewrite lookup_empty in H'.
    discriminate.
Qed.

Lemma InitializePartition_channels zk zom topic partition :
  closing (snd (fst (Zom.InitializePartition zk zom topic partition))) = closing zom.
Proof.
  unfold Zom.InitializePartition.
  destruct (FetchOffset zk topic partition) as [zk' [n [e|]]]; reflexivity.
Qed.

Lemma FinalizePartition_channels zk zom topic partition lastOffset timeout
    doneBeforeTimeout :
  closing (snd (fst (fst (Zom.FinalizePartition zk zom topic partition lastOffset timeout
                            doneBeforeTimeout)))) = closing zom.
Proof.
  unfold Zom.FinalizePartition.
  destruct (0 <=? lastOffset); [|reflexivity].
  destruct (lookupTracker zom topic partition) as [tracker|]; [|reflexivity].
  destruct (0 <? Int64.sub lastOffset (highestMarkedAsProcessedOffset tracker)).
  - destruct (waitForOffset tracker lastOffset timeout doneBeforeTimeout) as [t1 reached].
    destruct (Zom.commitOffset zk topic partition t1) as [[t2 zk2] [e|]];
      [destruct (isNoOffsetToCommit e)|]; reflexivity.
  - destruct (Zom.commitOffset zk topic partition tracker) as [[t2 zk2] [e|]];
      [destruct (isNoOffsetToCommit e)|]; reflexivity.
Qed.

(** X9: the life of a partition and [Close].  On a manager without
    trackers, after [InitializePartition] succeeded for a partition [Close]
    returns [UncleanClose]; after [FinalizePartition] then returned [nil]
    for it, [Close] returns [nil]. *)
Theorem partition_lifecycle_and_Close zk zom topic partition :
  closing zom = false ->
  (forall topic' partition', lookupTracker zom topic' partition' = None) ->
  snd (snd (FetchOffset zk topic partition)) = None ->
  let '(zk1, zom1, _) := Zom.InitializePartition zk zom topic partition in
  (forall ticks, snd (Zom.Close ticks zk1 zom1) = Returns (Some UncleanClose)) /\
  (forall lastOffset timeout doneBeforeTimeout ticks,
     let '(zk2, zom2, _, result) :=
       Zom.FinalizePartition zk1 zom1 topic partition lastOffset timeout
                             doneBeforeTimeout in
     result = Returns None ->
     snd (Zom.Close ticks zk2 zom2) = Returns None).
Proof.
  intros Hopen Hempty Hfetch.
  pose proof (InitializePartition_lookup zk zom topic partition) as Hlook.
  pose proof (InitializePartition_channels zk zom topic partition) as Hch.
  rewrite Hfetch in Hlook.
  destruct (Zom.InitializePartition zk zom topic partition) as [[zk1 zom1] r].
  cbn [fst snd] in Hlook, Hch. split.
  - intros ticks.
    destruct (Close_result_cases ticks zk1 zom1) as [[H _]|[_ Hnone]];
      [congruence | exact H |].
    specialize (Hnone topic partition). rewrite Hlook in Hnone.
    rewrite decide_True in Hnone by reflexivity. discriminate.
  - intros lastOffset timeout doneBeforeTimeout ticks.
    pose proof (FinalizePartition_nil_removed zk1 zom1 topic partition lastOffset timeout
                  doneBeforeTimeout) as Hgone.
    pose proof (FinalizePartition_channels zk1 zom1 topic partition lastOffset timeout
                  doneBeforeTimeout) as Hch2.
    pose proof (fun topic' partition' =>
                  FinalizePartition_frame zk1 zom1 topic partition topic' partition'
                    lastOffset timeout doneBeforeTimeout) as Hframe.
    destruct (Zom.FinalizePartition zk1 zom1 topic partition lastOffset timeout
                doneBeforeTimeout) as [[[zk2 zom2] calls] result].
    cbn [fst snd] in *. intros ->. specialize (Hgone eq_refl).
    destruct (Close_result_cases ticks zk2 zom2) as [[_ Hex]|[H _]];
      [congruence | | exact H].
    destruct Hex as (topic' & partition' & tracker & Htr).
    destruct (decide ((topic', partition') = (topic, partition))) as [[= -> ->]|Hne].
    + congruence.
    + rewrite (Hframe _ _ Hne), Hlook, decide_False, Hempty in Htr by exact Hne.
      discriminate.
Qed.

Lemma partition_lifecycle_and_Close_witness :
  let '(zk1, zom1, _) :=
    Zom.InitializePartition (mkZk ∅ [] []) Zom.NewZookeeperOffsetManager "t" 0 in
  snd (Zom.Close 1 zk1 zom1) = Returns (Some UncleanClose) /\
  snd (Zom.Close 1 zk1
         (snd (fst (fst (Zom.FinalizePartition zk1 zom1 "t" 0 (-1) (2 * Second) false)))))
  = Returns None.
Proof.
  pose proof (partition_lifecycle_and_Close (mkZk ∅ [] []) Zom.NewZookeeperOffsetManager
                "t" 0 eq_refl (fun _ _ => eq_refl) eq_refl) as H.
  destruct (Zom.InitializePartition (mkZk ∅ [] []) Zom.NewZookeeperOffsetManager "t" 0)
    as [[zk1 zom1] r] eqn:Einit.
  destruct H as [Hunclean Hclean]. split; [apply Hunclean|].
  specialize (Hclean (-1) (2 * Second) false 1%nat).
  destruct (Zom.FinalizePartition zk1 zom1 "t" 0 (-1) (2 * Second) false)
    as [[[zk2 zom2] calls] result] eqn:Efin.
  assert (zk2 = zk1 /\ result = Returns None) as [-> ->].
  { unfold Zom.FinalizePartition in Efin. cbn in Efin. injection Efin as <- _ _ <-. auto. }
  cbn [fst snd]. apply Hclean. reflexivity.
Defined.

(** X10: a second [Close] of the offset manager panics on the closed
    channel [closing], with the manager as the first [Close] left it. *)
Theorem Close_twice_panics ticks ticks' zk zom :
  closing zom = false ->
  let '(zk1, zom1, first) := Zom.Close ticks zk zom in
  (exists err, first = Returns err) /\
  exists msg, Zom.Close ticks' zk1 zom1 = (zk1, zom1, Panics msg).
Proof.
  intros Hopen. unfold Zom.Close at 1. rewrite Hopen.
  pose proof (offsetCommitter_spec ticks zk (mkZom (offsets zom) true (closed zom)))
    as (Hclosing & _).
  destruct (Zom.offsetCommitter ticks zk (mkZom (offsets zom) true (closed zom)))
    as [zk1 zom1]. cbn in Hclosing.
  split; [eauto|]. unfold Zom.Close. rewrite Hclosing. eauto.
Qed.

Lemma Close_twice_panics_witness :
  exists msg,
    snd (Zom.Close 0 (mkZk ∅ [] [])
           (snd (fst (Zom.Close 0 (mkZk ∅ [] []) Zom.NewZookeeperOffsetManager))))
    = Panics msg.
Proof.
  pose proof (Close_twice_panics 0 0 (mkZk ∅ [] []) Zom.NewZookeeperOffsetManager eq_refl)
    as H.
  destruct (Zom.Close 0 (mkZk ∅ [] []) Zom.NewZookeeperOffsetManager)
    as [[zk1 zom1] first] eqn:E.
  destruct H as [_ [msg H]]. exists msg.
  assert (zk1 = mkZk ∅ [] []) as <- by (cbn in E; congruence).
  cbn [fst snd]. rewrite H. reflexivity.
Defined.

(** X11: what a commit writes is what the next owner of the partition
    starts from.  When [commitOffset] has committed the processed offset [h]
    (not negative, below the top of the range), an [InitializePartition]
    whose fetch succeeds, on whatever manager, returns [h + 1] and installs
    a tracker whose three offsets are [h]. *)
Theorem committed_offset_is_resumed zk zom topic partition tracker tracker' zk' :
  lastCommittedOffset tracker < highestMarkedAsProcessedOffset tracker ->
  0 <= highestMarkedAsProcessedOffset tracker < Int64.max_int64 ->
  Zom.commitOffset zk topic partition tracker = (tracker', zk', None) ->
  snd (zkRequest (ZkFetchOffset topic partition) zk') = None ->
  let h := highestMarkedAsProcessedOffset tracker in
  let '(zk'', zom', result) := Zom.InitializePartition zk' zom topic partition in
  lastCommittedOffset tracker' = h /\
  result = (h + 1, None) /\
  exists fresh,
    lookupTracker zom' topic partition = Some fresh /\
    highestMarkedAsProcessedOffset fresh = h /\
    lastConsumedOffset fresh = h /\
    lastCommittedOffset fresh = h.
Proof.
  intros Hpending Hrange Hcommit Hfetch. cbv zeta.
  unfold Zom.commitOffset, commit in Hcommit.
  destruct (Z.ltb_spec (lastCommittedOffset tracker)
                       (highestMarkedAsProcessedOffset tracker)); [|lia].
  pose proof (zkCommitter_healthy_write zk topic partition
                (highestMarkedAsProcessedOffset tracker)) as Hwrite.
  destruct (Zom.zkCommitter topic partition (highestMarkedAsProcessedOffset tracker) zk)
    as [zk1 [e|]]; [discriminate|].
  injection Hcommit as <- <-.
  specialize (Hwrite ltac:(lia) eq_refl). cbn in Hwrite.
  rewrite add_no_overflow in Hwrite by int64_lia.
  pose proof (InitializePartition_lookup zk1 zom topic partition topic partition) as Hlook.
  pose proof (zkRequest_offsets (ZkFetchOffset topic partition) zk1) as Hoffs.
  unfold Zom.InitializePartition, FetchOffset in *.
  destruct (zkRequest (ZkFetchOffset topic partition) zk1) as [zk2 [e|]];
    [discriminate|].
  cbn in *. rewrite Hoffs, Hwrite in *. cbn in *.
  rewrite decide_True in Hlook by reflexivity.
  split; [reflexivity | split; [reflexivity|]].
  eexists. split; [exact Hlook|].
  unfold newTracker; cbn. rewrite sub_no_overflow by int64_lia.
  repeat split; lia.
Qed.

Lemma committed_offset_is_resumed_witness :
  let '(tracker', zk', err) :=
    Zom.commitOffset (mkZk ∅ [] []) "t" 0 (mkTracker false 0 9 9 3) in
  snd (Zom.InitializePartition zk' Zom.NewZookeeperOffsetManager "t" 0) = (10, None).
Proof.
  destruct (Zom.commitOffset (mkZk ∅ [] []) "t" 0 (mkTracker false 0 9 9 3))
    as [[tracker' zk'] err] eqn:E.
  assert (err = None) as -> by (vm_compute in E; congruence).
  unshelve epose proof
    (committed_offset_is_resumed (mkZk ∅ [] []) Zom.NewZookeeperOffsetManager "t" 0
       (mkTracker false 0 9 9 3) tracker' zk' _ _ E _) as H.
  - reflexivity.
  - cbn. int64_lia.
  - vm_compute in E. injection E as _ <-. reflexivity.
  - cbv zeta in H.
    destruct (Zom.InitializePartition zk' Zom.NewZookeeperOffsetManager "t" 0)
      as [[zk'' zom'] result].
    destruct H as (_ & -> & _). reflexivity.
Defined.

(** What a call of the committer of [commitOffset] asks of the
    coordination service. *)
Lemma zkCommitter_calls zk topic partition offset :
  (0 <= offset ->
   zkCalls (fst (Zom.zkCommitter topic partition offset zk))
   = zkCalls zk ++ [ZkCommitOffset topic partition (Int64.add offset 1)]) /\
  (offset < 0 -> fst (Zom.zkCommitter topic partition offset zk) = zk).
Proof.
  unfold Zom.zkCommitter. destruct (Z.leb_spec 0 offset); split; intros; try lia.
  - apply CommitOffset_calls.
  - reflexivity.
Qed.

(** X12: [FinalizePartition] writes acknowledged offsets only.  For an
    initialised partition it asks the coordination service for one thing at
    most, the write of [highestMarkedAsProcessedOffset + 1], and for that
    exactly when [lastOffset >= 0] and the processed offset is above the
    committed one and not negative.  What is written is decided by the
    processed offset, not by [lastOffset]: while a delivered message is not
    acknowledged (the processed offset is below [lastOffset]) the value
    written does not pass [lastOffset], so that message is read again. *)
Theorem FinalizePartition_writes_acknowledged zk zom topic partition lastOffset timeout
    doneBeforeTimeout tracker :
  lookupTracker zom topic partition = Some tracker ->
  let '(zk', _, _, _) :=
    Zom.FinalizePartition zk zom topic partition lastOffset timeout doneBeforeTimeout in
  let h := highestMarkedAsProcessedOffset tracker in
  let pending := 0 <= lastOffset /\ lastCommittedOffset tracker < h /\ 0 <= h in
  (pending -> zkCalls zk' = zkCalls zk ++ [ZkCommitOffset topic partition (Int64.add h 1)]) /\
  (~ pending -> zk' = zk) /\
  (Int64.in_range lastOffset -> 0 <= h < lastOffset ->
   Int64.add h 1 = h + 1 /\ Int64.add h 1 <= lastOffset).
Proof.
  intros Hlook. unfold Zom.FinalizePartition.
  assert (Int64.in_range lastOffset ->
          0 <= highestMarkedAsProcessedOffset tracker < lastOffset ->
          Int64.add (highestMarkedAsProcessedOffset tracker) 1
          = highestMarkedAsProcessedOffset tracker + 1 /\
          Int64.add (highestMarkedAsProcessedOffset tracker) 1 <= lastOffset) as Hbelow.
  { intros Hr Hh. rewrite add_no_overflow by int64_lia. lia. }
  destruct (Z.leb_spec 0 lastOffset) as [Hpos|Hneg];
    [|split; [lia | split; [reflexivity | exact Hbelow]]].
  rewrite Hlook.
  assert (forall t1,
            highestMarkedAsProcessedOffset t1 = highestMarkedAsProcessedOffset tracker ->
            lastCommittedOffset t1 = lastCommittedOffset tracker ->
            let zk' := snd (fst (Zom.commitOffset zk topic partition t1)) in
            let h := highestMarkedAsProcessedOffset tracker in
            let pending := 0 <= lastOffset /\ lastCommittedOffset tracker < h /\ 0 <= h in
            (pending ->
             zkCalls zk' = zkCalls zk ++ [ZkCommitOffset topic partition (Int64.add h 1)]) /\
            (~ pending -> zk' = zk) /\
            (Int64.in_range lastOffset -> 0 <= h < lastOffset ->
             Int64.add h 1 = h + 1 /\ Int64.add h 1 <= lastOffset)) as Hcommit.
  { intros t1 Hh Hc. cbv zeta. unfold Zom.commitOffset, commit. rewrite Hh, Hc.
    destruct (Z.ltb_spec (lastCommittedOffset tracker)
                         (highestMarkedAsProcessedOffset tracker)) as [Hp|Hp];
      [|split; [lia | split; [reflexivity | exact Hbelow]]].
    destruct (zkCommitter_calls zk topic partition
                (highestMarkedAsProcessedOffset tracker)) as [Hw Hn].
    destruct (Zom.zkCommitter topic partition (highestMarkedAsProcessedOffset tracker) zk)
      as [zk1 [e|]]; cbn in *;
      (split; [intros; apply Hw; lia | split; [intros; apply Hn; lia | exact Hbelow]]). }
  destruct (0 <? Int64.sub lastOffset (highestMarkedAsProcessedOffset tracker)).
  - unfold waitForOffset.
    destruct (highestMarkedAsProcessedOffset tracker <? lastOffset);
      [specialize (Hcommit (setWaitingForOffset lastOffset tracker) eq_refl eq_refl)
      |specialize (Hcommit tracker eq_refl eq_refl)];
      cbv zeta in Hcommit;
      destruct (Zom.commitOffset zk topic partition _) as [[t2 zk2] [e|]];
      [destruct (isNoOffsetToCommit e)| |destruct (isNoOffsetToCommit e)|];
      exact Hcommit.
  - specialize (Hcommit tracker eq_refl eq_refl). cbv zeta in Hcommit.
    destruct (Zom.commitOffset zk topic partition tracker) as [[t2 zk2] [e|]];
      [destruct (isNoOffsetToCommit e)|]; exact Hcommit.
Qed.

Lemma FinalizePartition_writes_acknowledged_witness :
  let zom := mkZom {[ "t" := {[ 0 := mkTracker false 0 49 52 40 ]} ]} false false in
  zkCalls (fst (fst (fst (Zom.FinalizePartition (mkZk ∅ [] []) zom "t" 0 52
                            (2 * Second) false))))
  = [ZkCommitOffset "t" 0 50].
Proof.
  cbv zeta.
  pose proof (FinalizePartition_writes_acknowledged (mkZk ∅ [] [])
    (mkZom {[ "t" := {[ 0 := mkTracker false 0 49 52 40 ]} ]} false false)
    "t" 0 52 (2 * Second) false (mkTracker false 0 49 52 40) eq_refl) as H.
  destruct (Zom.FinalizePartition _ _ "t" 0 52 _ _) as [[[zk' zom'] calls] result].
  cbv zeta in H. destruct H as [H _]. cbn [fst]. rewrite H; [reflexivity|].
  cbn. lia.
Defined.

(** *** Close after FinalizePartition *)

(** After [FinalizePartition] the partition still has its tracker exactly
    when the call returned an error: the [delete] is behind the [return] of
    a failed commit. *)
Lemma FinalizePartition_result_tracker zk zom topic partition lastOffset timeout
    doneBeforeTimeout :
  let '(_, zom1, _, result) :=
    Zom.FinalizePartition zk zom topic partition lastOffset timeout doneBeforeTimeout in
  is_Some (lookupTracker zom1 topic partition) <-> exists e, result = Returns (Some e).
Proof.
  assert (forall zom0 r,
            r = Returns None \/ (exists msg, r = Panics msg) ->
            lookupTracker zom0 topic partition = None ->
            is_Some (lookupTracker zom0 topic partition) <->
            exists e, r = Returns (Some e)) as Hgone.
  { intros zom0 r Hr ->. split.
    - intros [tr Htr]. discriminate.
    - intros [e ->]. destruct Hr as [Hr | [msg Hr]]; discriminate. }
  assert (forall t2 e,
            is_Some (offsets zom !! topic) ->
            is_Some (lookupTracker (storeTracker topic partition t2 zom) topic partition) <->
            exists e', Returns (Some e) = Returns (Some e')) as Hkept.
  { intros t2 e Htopic. split; [eauto|]. intros _.
    rewrite lookupTracker_storeTracker by exact Htopic. eauto. }
  unfold Zom.FinalizePartition.
  destruct (0 <=? lastOffset);
    [|apply Hgone; [left; reflexivity | apply lookupTracker_deleteTracker]].
  destruct (lookupTracker zom topic partition) as [tracker|] eqn:Hlook;
    [|apply Hgone; [right; eauto | exact Hlook]].
  pose proof (lookupTracker_topic _ _ _ _ Hlook) as Htopic.
  destruct (0 <? Int64.sub lastOffset (highestMarkedAsProcessedOffset tracker)).
  - destruct (waitForOffset tracker lastOffset timeout doneBeforeTimeout) as [t1 reached].
    destruct (Zom.commitOffset zk topic partition t1) as [[t2 zk2] [e|]];
      [destruct (isNoOffsetToCommit e)|];
      first [ apply Hkept, Htopic
            | apply Hgone; [left; reflexivity | apply lookupTracker_deleteTracker] ].
  - destruct (Zom.commitOffset zk topic partition tracker) as [[t2 zk2] [e|]];
      [destruct (isNoOffsetToCommit e)|];
      first [ apply Hkept, Htopic
            | apply Hgone; [left; reflexivity | apply lookupTracker_deleteTracker] ].
Qed.

(** A manager with one tracker has no other. *)
Lemma lookupTracker_singleton topic partition tracker closing closed
    topic' partition' tracker' :
  lookupTracker (mkZom {[ topic := {[ partition := tracker ]} ]} closing closed)
                topic' partition' = Some tracker' ->
  (topic', partition') = (topic, partition).
Proof.
  unfold lookupTracker. cbn. intros H.
  destruct (decide (topic = topic')) as [<-|Htopic].
  - rewrite lookup_singleton_eq in H. cbn in H.
    destruct (decide (partition = partition')) as [<-|Hpartition]; [reflexivity|].
    rewrite lookup_singleton_ne in H by exact Hpartition. discriminate.
  - rewrite lookup_singleton_ne in H by exact Htopic. discriminate.
Qed.

(** C8: [Close] closes [closing], returns once the committer goroutine has
    closed [closed], and returns [UncleanClose] exactly when a tracker
    remains in the offset map, [nil] otherwise; the rounds of commits the
    committer still makes do not change which partitions have a tracker.
    A tracker remains not only where [FinalizePartition] was not called:
    after a [FinalizePartition] for a partition, [Close] returns
    [UncleanClose] exactly when that call returned an error (the tracker
    of the partition is then still in the map) or another partition has a
    tracker, and [nil] otherwise. *)
Theorem Close_unclean_iff_tracker_remains ticks zk zom :
  closing zom = false ->
  let remains zom :=
    exists topic partition tracker, lookupTracker zom topic partition = Some tracker in
  (let '(zk', zom', result) := Zom.Close ticks zk zom in
   closing zom' = true /\ closed zom' = true /\
   (remains zom' <-> remains zom) /\
   (result = Returns (Some UncleanClose) <-> remains zom) /\
   (result = Returns None <-> ~ remains zom)) /\
  (forall topic partition lastOffset timeout doneBeforeTimeout,
     let '(zk1, zom1, _, finalized) :=
       Zom.FinalizePartition zk zom topic partition lastOffset timeout
                             doneBeforeTimeout in
     let unclean :=
       (exists e, finalized = Returns (Some e)) \/
       (exists topic' partition' tracker',
          (topic', partition') <> (topic, partition) /\
          lookupTracker zom topic' partition' = Some tracker') in
     (snd (Zom.Close ticks zk1 zom1) = Returns (Some UncleanClose) <-> unclean) /\
     (snd (Zom.Close ticks zk1 zom1) = Returns None <-> ~ unclean)).
Proof.
  intros Hopen. cbv zeta. split.
  - unfold Zom.Close. rewrite Hopen.
    pose proof (offsetCommitter_spec ticks zk (mkZom (offsets zom) true (closed zom)))
      as (Hclosing & Hclosed & Hsame).
    destruct (Zom.offsetCommitter ticks zk (mkZom (offsets zom) true (closed zom)))
      as [zk' zom']. cbn in Hclosing, Hclosed, Hsame.
    assert ((exists topic partition tracker,
               lookupTracker zom' topic partition = Some tracker) <->
            (exists topic partition tracker,
               lookupTracker zom topic partition = Some tracker)) as Hremains.
    { split; intros (topic & partition & tracker & H).
      - destruct (proj1 (Hsame topic partition)) as [tracker' H']; [eauto|].
        exists topic, partition, tracker'. exact H'.
      - destruct (proj2 (Hsame topic partition)) as [tracker' H']; [eexists; exact H|].
        exists topic, partition, tracker'. exact H'. }
    split; [exact Hclosing | split; [exact Hclosed | split; [exact Hremains|]]].
    rewrite <- Hremains. unfold lookupTracker.
    rewrite (tracker_remains_iff (offsets zom')).
    destruct (closeError_spec (offsets zom')) as [[-> Hex] | [-> Hall]].
    + split; [tauto|]. split; [discriminate | tauto].
    + assert (~ exists topic po, offsets zom' !! topic = Some po /\ po <> ∅) as Hnone.
      { intros (topic & po & E & Hne). apply Hne, (Hall topic), E. }
      split; [split; [discriminate | tauto] | tauto].
  - intros topic partition lastOffset timeout doneBeforeTimeout.
    pose proof (FinalizePartition_channels zk zom topic partition lastOffset timeout
                  doneBeforeTimeout) as Hch.
    pose proof (FinalizePartition_result_tracker zk zom topic partition lastOffset timeout
                  doneBeforeTimeout) as Hown.
    assert (forall topic' partition',
              (topic', partition') <> (topic, partition) ->
              lookupTracker
                (snd (fst (fst (Zom.FinalizePartition zk zom topic partition lastOffset
                                  timeout doneBeforeTimeout)))) topic' partition'
              = lookupTracker zom topic' partition') as Hframe
      by (intros; apply FinalizePartition_frame; assumption).
    destruct (Zom.FinalizePartition zk zom topic partition lastOffset timeout
                doneBeforeTimeout) as [[[zk1 zom1] calls] finalized].
    cbn in Hch, Hown, Hframe. rewrite Hopen in Hch.
    match goal with
    | |- (_ <-> ?U) /\ _ =>
        assert (U <-> exists t p tr, lookupTracker zom1 t p = Some tr) as Hiff
    end.
    { split.
      - intros [Herr | (t' & p' & tr' & Hne & Hl)].
        + apply Hown in Herr as [tr Htr]. exists topic, partition, tr. exact Htr.
        + exists t', p', tr'. rewrite Hframe by exact Hne. exact Hl.
      - intros (t' & p' & tr' & Hl).
        destruct (decide ((t', p') = (topic, partition))) as [Heq|Hne].
        + injection Heq as -> ->. left. apply Hown. eauto.
        + right. exists t', p', tr'. split; [exact Hne|].
          rewrite <- Hframe by exact Hne. exact Hl. }
    destruct (Close_result_cases ticks zk1 zom1 Hch) as [[-> Hex] | [-> Hall]].
    + split; [split; [intros _; apply Hiff, Hex | reflexivity]|].
      split; [discriminate|]. intros Hn. exfalso. apply Hn, Hiff, Hex.
    + match goal with
      | |- (_ <-> ?U) /\ _ => assert (~ U) as Hnone
      end.
      { intros Hu. apply Hiff in Hu as (t & p & tr & Hl).
        rewrite Hall in Hl. discriminate. }
      split; [split; [discriminate | tauto] | tauto].
Qed.

Lemma Close_unclean_iff_tracker_remains_witness :
  let zom := mkZom {[ "t" := {[ 0 := mkTracker false 0 51 52 49 ]} ]} false false in
  (let '(zk', zom', result) := Zom.Close 1 (mkZk ∅ [] []) zom in
   closing zom' = true /\ closed zom' = true /\ result = Returns (Some UncleanClose)) /\
  (let '(zk1, zom1, _, finalized) :=
     Zom.FinalizePartition (mkZk ∅ [] []) zom "t" 0 52 (2 * Second) false in
   finalized = Returns None /\ snd (Zom.Close 1 zk1 zom1) = Returns None).
Proof.
  cbv zeta.
  pose proof (Close_unclean_iff_tracker_remains 1 (mkZk ∅ [] [])
    (mkZom {[ "t" := {[ 0 := mkTracker false 0 51 52 49 ]} ]} false false) eq_refl)
    as [Hclose Hfinalize].
  split.
  - destruct (Zom.Close 1 _ _) as [[zk' zom'] result].
    destruct Hclose as (H1 & H2 & _ & H3 & _).
    split; [exact H1 | split; [exact H2|]].
    apply H3. exists "t", 0, (mkTracker false 0 51 52 49). vm_compute. reflexivity.
  - specialize (Hfinalize "t" 0 52 (2 * Second) false).
    destruct (Zom.FinalizePartition _ _ "t" 0 52 (2 * Second) false)
      as [[[zk1 zom1] calls] finalized] eqn:E.
    assert (finalized = Returns None) as -> by (vm_compute in E; congruence).
    split; [reflexivity|]. cbv zeta in Hfinalize.
    apply (proj2 Hfinalize). intros [[e He] | (t' & p' & tr' & Hne & Hl)].
    + discriminate.
    + apply Hne. eapply lookupTracker_singleton, Hl.
Defined.

(** C8, the reading that [UncleanClose] means [FinalizePartition] was not
    called for some partition: here one partition has a tracker, with an
    acknowledgement to commit, [FinalizePartition] is called for it, the
    write fails, [FinalizePartition] returns the error before its [delete],
    and [Close] returns [UncleanClose]. *)
Lemma Close_unclean_although_finalized :
  let zom := mkZom {[ "t" := {[ 0 := mkTracker false 0 50 50 49 ]} ]} false false in
  let zk := mkZk ∅ [Some (ZkError "connection loss")] [] in
  (forall topic partition tracker,
     lookupTracker zom topic partition = Some tracker -> (topic, partition) = ("t", 0)) /\
  (let '(zk1, zom1, _, finalized) :=
     Zom.FinalizePartition zk zom "t" 0 50 (2 * Second) false in
   finalized = Returns (Some (CommitFailed 50 49 (ZkError "connection loss"))) /\
   snd (Zom.Close 0 zk1 zom1) = Returns (Some UncleanClose)).
Proof.
  cbv zeta. split.
  - intros topic partition tracker. apply lookupTracker_singleton.
  - vm_compute. split; reflexivity.
Qed.

End OffsetManagerPartitions.

(** ** A round of commits *)

Section CommitRound.

Implicit Types (zk : zookeeper) (zom : zookeeperOffsetManager).
Implicit Types (topic : string) (partition : Z).

Lemma settled_nothing_to_commit (tracker : partitionOffsetTracker) :
  highestMarkedAsProcessedOffset (settled tracker) = highestMarkedAsProcessedOffset tracker /\
  highestMarkedAsProcessedOffset (settled tracker) <= lastCommittedOffset (settled tracker).
Proof.
  unfold settled. cbn. unfold commit.
  destruct (Z.ltb_spec (lastCommittedOffset tracker)
                       (highestMarkedAsProcessedOffset tracker)); cbn; lia.
Qed.

Lemma commitOffset_healthy zk topic partition (tracker : partitionOffsetTracker) :
  zkFaults zk = [] ->
  let '(tracker', zk', _) := Zom.commitOffset zk topic partition tracker in
  zkFaults zk' = [] /\
  tracker' = settled tracker /\
  (forall key, key <> (topic, partition) -> zkOffsets zk' !! key = zkOffsets zk !! key) /\
  (lastCommittedOffset tracker < highestMarkedAsProcessedOffset tracker ->
   0 <= highestMarkedAsProcessedOffset tracker ->
   zkOffsets zk' !! (topic, partition)
   = Some (Int64.add (highestMarkedAsProcessedOffset tracker) 1)).
Proof.
  intros Hhealthy. unfold settled. cbn. unfold Zom.commitOffset, commit.
  destruct (Z.ltb_spec (lastCommittedOffset tracker)
                       (highestMarkedAsProcessedOffset tracker)) as [Hp|Hp].
  2:{ split; [exact Hhealthy|]. split; [reflexivity|]. split; [reflexivity | lia]. }
  unfold Zom.zkCommitter.
  destruct (Z.leb_spec 0 (highestMarkedAsProcessedOffset tracker)) as [Hpos|Hneg].
  2:{ split; [exact Hhealthy|]. split; [reflexivity|]. split; [reflexivity | lia]. }
  unfold CommitOffset, zkRequest. rewrite Hhealthy. cbn.
  split; [reflexivity|]. split; [reflexivity|]. split.
  - intros key Hne. apply lookup_insert_ne. congruence.
  - intros _ _. apply lookup_insert_eq.
Qed.

Lemma commitTopic_healthy topic zk (po : gmap Z partitionOffsetTracker) :
  zkFaults zk = [] ->
  let '(zk', po') := Zom.commitTopic topic zk po in
  zkFaults zk' = [] /\
  (forall partition, po' !! partition = settled <$> po !! partition) /\
  (forall key, (forall partition, key = (topic, partition) -> po !! partition = None) ->
     zkOffsets zk' !! key = zkOffsets zk !! key) /\
  (forall partition tracker,
     po !! partition = Some tracker ->
     lastCommittedOffset tracker < highestMarkedAsProcessedOffset tracker ->
     0 <= highestMarkedAsProcessedOffset tracker ->
     zkOffsets zk' !! (topic, partition)
     = Some (Int64.add (highestMarkedAsProcessedOffset tracker) 1)).
Proof.
  intros Hhealthy. unfold Zom.commitTopic.
  apply (map_fold_weak_ind
    (fun (r : zookeeper * gmap Z partitionOffsetTracker)
         (m : gmap Z partitionOffsetTracker) =>
       let '(zk', po') := r in
       zkFaults zk' = [] /\
       (forall partition, po' !! partition = settled <$> m !! partition) /\
       (forall key, (forall partition, key = (topic, partition) -> m !! partition = None) ->
          zkOffsets zk' !! key = zkOffsets zk !! key) /\
       (forall partition tracker,
          m !! partition = Some tracker ->
          lastCommittedOffset tracker < highestMarkedAsProcessedOffset tracker ->
          0 <= highestMarkedAsProcessedOffset tracker ->
          zkOffsets zk' !! (topic, partition)
          = Some (Int64.add (highestMarkedAsProcessedOffset tracker) 1)))).
  - split; [exact Hhealthy|]. split; [|split].
    + intros partition. rewrite !lookup_empty. reflexivity.
    + reflexivity.
    + intros partition tracker H. rewrite lookup_empty in H. discriminate.
  - intros i x m [zk1 acc] Hfresh (IHf & IHl & IHframe & IHstore).
    pose proof (commitOffset_healthy zk1 topic i x IHf) as Hstep.
    destruct (Zom.commitOffset zk1 topic i x) as [[tracker' zk2] err].
    destruct Hstep as (Hf & -> & Hframe & Hstore).
    split; [exact Hf|]. split; [|split].
    + intros partition. destruct (decide (i = partition)) as [<-|Hne].
      * rewrite !lookup_insert_eq. reflexivity.
      * rewrite !lookup_insert_ne by exact Hne. apply IHl.
    + intros key Hkey. rewrite Hframe.
      * apply IHframe. intros partition ->.
        specialize (Hkey partition eq_refl).
        destruct (decide (i = partition)) as [<-|Hne]; [exact Hfresh|].
        rewrite lookup_insert_ne in Hkey by exact Hne. exact Hkey.
      * intros ->. specialize (Hkey i eq_refl).
        rewrite lookup_insert_eq in Hkey. discriminate.
    + intros partition tracker Hm Hp Hpos.
      destruct (decide (i = partition)) as [<-|Hne].
      * rewrite lookup_insert_eq in Hm. injection Hm as <-. apply Hstore; assumption.
      * rewrite lookup_insert_ne in Hm by exact Hne.
        rewrite Hframe by congruence. eapply IHstore; eassumption.
Qed.

(** X13: a round of [commitOffsets] with a coordination service that
    answers every request.  Every tracker is left as a successful [commit]
    leaves it, so that none has anything to commit; for every tracker whose
    processed offset was above the committed one and not negative, the node
    of its partition holds that offset plus one; the node of a partition
    without tracker is as it was. *)
Theorem commitOffsets_healthy_round zk zom :
  zkFaults zk = [] ->
  let '(zk', zom') := Zom.commitOffsets zk zom in
  (forall topic partition,
     lookupTracker zom' topic partition = settled <$> lookupTracker zom topic partition) /\
  (forall topic partition tracker',
     lookupTracker zom' topic partition = Some tracker' ->
     highestMarkedAsProcessedOffset tracker' <= lastCommittedOffset tracker') /\
  (forall topic partition tracker,
     lookupTracker zom topic partition = Some tracker ->
     lastCommittedOffset tracker < highestMarkedAsProcessedOffset tracker ->
     0 <= highestMarkedAsProcessedOffset tracker ->
     zkOffsets zk' !! (topic, partition)
     = Some (Int64.add (highestMarkedAsProcessedOffset tracker) 1)) /\
  (forall topic partition,
     lookupTracker zom topic partition = None ->
     zkOffsets zk' !! (topic, partition) = zkOffsets zk !! (topic, partition)).
Proof.
  intros Hhealthy. unfold Zom.commitOffsets.
  set (P := fun (r : zookeeper * gmap string (gmap Z partitionOffsetTracker))
                (m : gmap string (gmap Z partitionOffsetTracker)) =>
         let '(zk', offs') := r in
         zkFaults zk' = [] /\
         (forall topic partition,
            offs' !! topic ≫= (fun po => po !! partition)
            = settled <$> (m !! topic ≫= (fun po => po !! partition))) /\
         (forall topic partition tracker,
            m !! topic ≫= (fun po => po !! partition) = Some tracker ->
            lastCommittedOffset tracker < highestMarkedAsProcessedOffset tracker ->
            0 <= highestMarkedAsProcessedOffset tracker ->
            zkOffsets zk' !! (topic, partition)
            = Some (Int64.add (highestMarkedAsProcessedOffset tracker) 1)) /\
         (forall topic partition,
            m !! topic ≫= (fun po => po !! partition) = None ->
            zkOffsets zk' !! (topic, partition) = zkOffsets zk !! (topic, partition))).
  match goal with
  | |- context [map_fold ?f ?b (offsets zom)] =>
      assert (P (map_fold f b (offsets zom)) (offsets zom)) as Hfold
  end.
  { apply (map_fold_weak_ind P); subst P; cbv beta.
    - split; [exact Hhealthy|]. split; [|split].
      + intros topic partition. rewrite !lookup_empty. reflexivity.
      + intros topic partition tracker H. rewrite lookup_empty in H. discriminate.
      + reflexivity.
    - intros i po m [zk1 acc] Hfresh (IHf & IHl & IHstore & IHframe).
      pose proof (commitTopic_healthy i zk1 po IHf) as Hstep.
      destruct (Zom.commitTopic i zk1 po) as [zk2 po'].
      destruct Hstep as (Hf & Hl & Hframe & Hstore).
      split; [exact Hf|]. split; [|split].
      + intros topic partition. destruct (decide (i = topic)) as [<-|Hne].
        * rewrite !lookup_insert_eq. cbn. apply Hl.
        * rewrite !lookup_insert_ne by exact Hne. apply IHl.
      + intros topic partition tracker Hm Hp Hpos.
        destruct (decide (i = topic)) as [<-|Hne].
        * rewrite lookup_insert_eq in Hm. cbn in Hm. eapply Hstore; eassumption.
        * rewrite lookup_insert_ne in Hm by exact Hne.
          rewrite Hframe by (intros partition' [= ? ?]; congruence).
          eapply IHstore; eassumption.
      + intros topic partition Hm.
        destruct (decide (i = topic)) as [<-|Hne].
        * rewrite lookup_insert_eq in Hm. cbn in Hm.
          rewrite Hframe by (intros partition' [= <-]; exact Hm).
          apply IHframe. rewrite Hfresh. reflexivity.
        * rewrite lookup_insert_ne in Hm by exact Hne.
          rewrite Hframe by (intros partition' [= ? ?]; congruence).
          apply IHframe, Hm. }
  subst P. cbv beta in Hfold.
  destruct (map_fold _ _ (offsets zom)) as [zk' offs'].
  destruct Hfold as (_ & Hl & Hstore & Hframe).
  split; [exact Hl|]. split; [|split; [exact Hstore | exact Hframe]].
  intros topic partition tracker' Htr.
  change (lookupTracker (setOffsets offs' zom) topic partition)
    with (offs' !! topic ≫= (fun po => po !! partition)) in Htr.
  rewrite Hl in Htr.
  destruct (offsets zom !! topic ≫= (fun po => po !! partition)) as [tracker|];
    [|discriminate].
  injection Htr as <-. apply settled_nothing_to_commit.
Qed.

Lemma commitOffsets_healthy_round_witness :
  let zom :=
    mkZom {[ "t" := {[ 0 := mkTracker false 0 9 9 3; 1 := mkTracker false 0 4 6 4 ]} ]}
          false false in
  let '(zk', zom') := Zom.commitOffsets (mkZk ∅ [] []) zom in
  zkOffsets zk' !! ("t", 0) = Some 10 /\
  lookupTracker zom' "t" 0 = Some (mkTracker false 0 9 9 9).
Proof.
  cbv zeta.
  pose proof (commitOffsets_healthy_round (mkZk ∅ [] [])
    (mkZom {[ "t" := {[ 0 := mkTracker false 0 9 9 3; 1 := mkTracker false 0 4 6 4 ]} ]}
           false false) eq_refl) as H.
  destruct (Zom.commitOffsets _ _) as [zk' zom'].
  destruct H as (Hl & _ & Hstore & _). split.
  - rewrite (Hstore "t" 0 (mkTracker false 0 9 9 3));
      [reflexivity | vm_compute; reflexivity | reflexivity | cbn; lia].
  - rewrite Hl. vm_compute. reflexivity.
Defined.

End CommitRound.

(** ** Closing the group *)

Section GroupClose.

Implicit Types (cg : ConsumerGroup).

(** X14: [Close] runs once.  After a first [Close], whether it returned or
    panicked in the offset manager, every further [Close] returns
    [AlreadyClosing] and changes nothing. *)
Theorem Close_twice_AlreadyClosing ticks ticks' cg :
  singleShutdown cg = false ->
  let '(cg1, _) := Cg.Close ticks cg in
  Cg.Close ticks' cg1 = (cg1, Returns (Some AlreadyClosing)).
Proof.
  intros Honce. unfold Cg.Close at 1. rewrite Honce.
  destruct (Zom.Close ticks (kazoo cg) (offsetManager cg)) as [[zk1 zom1] [r|msg]].
  - destruct (Deregister zk1) as [zk2 e1]. destruct (ConsumerClose (consumer cg)) as [br1 e2].
    reflexivity.
  - reflexivity.
Qed.

Lemma Close_twice_AlreadyClosing_witness :
  snd (Cg.Close 0 (fst (Cg.Close 0 (exampleGroup [])))) = Returns (Some AlreadyClosing).
Proof.
  pose proof (Close_twice_AlreadyClosing 0 0 (exampleGroup []) eq_refl) as H.
  destruct (Cg.Close 0 (exampleGroup [])) as [cg1 r]. cbn [fst]. rewrite H. reflexivity.
Defined.

(** X15: a first [Close] of the group, with the offset manager not yet
    closed, returns what closing the Sarama consumer returns, nothing else:
    neither [UncleanClose] of the offset manager nor the error of
    [Deregister].  It closes the stopper and both output channels without
    sending on them, drops the instance, asks the broker client for its
    close only, and its last two requests to the coordination service are
    [Deregister] and the close of the connection. *)
Theorem Close_returns_consumer_close ticks cg :
  singleShutdown cg = false ->
  closing (offsetManager cg) = false ->
  let '(cg', result) := Cg.Close ticks cg in
  result = Returns (snd (ConsumerClose (consumer cg))) /\
  stopper cg' = true /\ messagesClosed cg' = true /\ errorsClosed cg' = true /\
  messages cg' = messages cg /\ errors cg' = errors cg /\
  Cg.Closed cg' = true /\ singleShutdown cg' = true /\
  brCalls (consumer cg') = brCalls (consumer cg) ++ [BrConsumerClose] /\
  exists calls, zkCalls (kazoo cg') = calls ++ [ZkDeregister; ZkClose].
Proof.
  intros Honce Hopen. unfold Cg.Close. rewrite Honce.
  unfold Zom.Close. rewrite Hopen.
  destruct (Zom.offsetCommitter ticks (kazoo cg) _) as [zk1 zom1].
  pose proof (zkRequest_calls ZkDeregister zk1) as Hcalls. unfold Deregister.
  destruct (zkRequest ZkDeregister zk1) as [zk2 e1]. cbn [fst] in Hcalls.
  pose proof (brokerRequest_calls BrConsumerClose (consumer cg)) as Hbr.
  unfold ConsumerClose.
  destruct (brokerRequest BrConsumerClose (consumer cg)) as [br1 e2]. cbn [fst snd] in *.
  repeat (split; [reflexivity || assumption|]).
  exists (zkCalls zk1). cbn [kazoo]. unfold zkClose.
  rewrite zkRequest_calls, Hcalls, <- app_assoc. reflexivity.
Qed.

Lemma Close_returns_consumer_close_witness :
  let cg :=
    mkCg OffsetNewest (2 * Second) (mkBroker [] []) (mkZk ∅ [] [])
         true false [] false [] false false
         (mkZom {[ "t" := {[ 0 := mkTracker false 0 51 52 49 ]} ]} false false) in
  snd (Zom.Close 0 (kazoo cg) (offsetManager cg)) = Returns (Some UncleanClose) /\
  snd (Cg.Close 0 cg) = Returns None.
Proof.
  cbv zeta. split; [vm_compute; reflexivity|].
  pose proof (Close_returns_consumer_close 0
    (mkCg OffsetNewest (2 * Second) (mkBroker [] []) (mkZk ∅ [] [])
          true false [] false [] false false
          (mkZom {[ "t" := {[ 0 := mkTracker false 0 51 52 49 ]} ]} false false))
    eq_refl eq_refl) as H.
  destruct (Cg.Close 0 _) as [cg' result]. destruct H as [-> _]. reflexivity.
Defined.

End GroupClose.

(** ** Claiming a partition *)

Section Claim.

Implicit Types (zk : zookeeper) (cg : ConsumerGroup).
Implicit Types (topic : string) (partition : Z).


(** X16: the claim loop asks for the partition at least once when it runs
    at all and at most [remaining] times, asks for nothing else, and gives
    up before its last try only on an error that is not
    [ErrPartitionClaimedByOther].  With an empty budget it asks nothing and
    lets [consumePartition] go on without a claim. *)
Theorem claimLoop_budget remaining : forall zk topic partition,
  let '(zk', err) := Cg.claimLoop remaining zk topic partition in
  exists tries : nat,
    (tries <= remaining)%nat /\
    (remaining <> 0%nat -> tries <> 0%nat) /\
    (remaining = 0%nat -> err = None) /\
    zkCalls zk' = zkCalls zk ++ replicate tries (ZkClaimPartition topic partition) /\
    zkOffsets zk' = zkOffsets zk /\
    forall e, err = Some e -> e <> ErrPartitionClaimedByOther \/ tries = remaining.
Proof.
  induction remaining as [|n IH]; intros zk topic partition; cbn.
  - exists 0%nat. rewrite app_nil_r. repeat split; try lia; try congruence.
  - unfold ClaimPartition.
    pose proof (zkRequest_calls (ZkClaimPartition topic partition) zk) as Hcalls.
    pose proof (zkRequest_offsets (ZkClaimPartition topic partition) zk) as Hoffs.
    destruct (zkRequest (ZkClaimPartition topic partition) zk) as [zk1 [e|]];
      cbn [fst] in *.
    + destruct (isErrPartitionClaimedByOther e) eqn:Eother; cbn.
      * destruct n as [|n']; cbn [Nat.eqb negb].
        -- exists 1%nat. repeat split; try lia; auto.
        -- specialize (IH zk1 topic partition).
           destruct (Cg.claimLoop (S n') zk1 topic partition) as [zk' err].
           destruct IH as (tries & Hle & Hnz & _ & Hc & Ho & He).
           exists (S tries). repeat split; try lia.
           ++ rewrite Hc, Hcalls, <- app_assoc. reflexivity.
           ++ congruence.
           ++ intros e' He'. destruct (He e' He'); [left; assumption | right; lia].
      * exists 1%nat. repeat split; try lia; auto;
          try (intros e' [= <-]; left; intros ->; discriminate).
    + exists 1%nat. repeat split; try lia; auto; try discriminate.
Qed.

(** When every claim is answered with [ErrPartitionClaimedByOther], the
    loop uses its whole budget and returns that error. *)
Lemma claimLoop_contended remaining : forall zk topic partition rest,
  remaining <> 0%nat ->
  zkFaults zk = replicate remaining (Some ErrPartitionClaimedByOther) ++ rest ->
  let '(zk', err) := Cg.claimLoop remaining zk topic partition in
  err = Some ErrPartitionClaimedByOther /\
  zkFaults zk' = rest /\
  zkOffsets zk' = zkOffsets zk /\
  zkCalls zk' = zkCalls zk ++ replicate remaining (ZkClaimPartition topic partition).
Proof.
  induction remaining as [|n IH]; intros zk topic partition rest Hnz Hfaults; [lia|].
  cbn. unfold ClaimPartition, zkRequest. rewrite Hfaults. cbn.
  destruct n as [|n']; cbn [Nat.eqb negb].
  - repeat split; reflexivity.
  - specialize (IH (mkZk (zkOffsets zk)
                         (replicate (S n') (Some ErrPartitionClaimedByOther) ++ rest)
                         (zkCalls zk ++ [ZkClaimPartition topic partition]))
                   topic partition rest ltac:(lia) eq_refl).
    destruct (Cg.claimLoop (S n') _ topic partition) as [zk' err].
    destruct IH as (He & Hf & Ho & Hc). cbn in Ho, Hc.
    repeat split; auto. rewrite Hc, <- app_assoc. reflexivity.
Qed.

(** X17: the budget of claims is the processing timeout in seconds plus
    three, which is at least three when the timeout is not negative.
    Whenever the budget is not empty and the partition stays claimed by
    another instance, [consumePartition] gives up with
    [ErrPartitionClaimedByOther] after exactly that many claims; it has then
    asked for nothing else: no release, no offset, no tracker, nothing of
    the broker. *)
Theorem consumePartition_contended cg topic partition events doneBeforeTimeout rest :
  let budget := Z.to_nat (Z.quot (configProcessingTimeout cg) Second + 3) in
  budget <> 0%nat ->
  zkFaults (kazoo cg) = replicate budget (Some ErrPartitionClaimedByOther) ++ rest ->
  let '(cg', exit) :=
    Cg.consumePartition cg topic partition false events doneBeforeTimeout in
  exit = ExitClaim ErrPartitionClaimedByOther /\
  zkCalls (kazoo cg') = zkCalls (kazoo cg) ++ replicate budget (ZkClaimPartition topic partition) /\
  (0 <= configProcessingTimeout cg -> (3 <= budget)%nat) /\
  consumer cg' = consumer cg /\
  offsetManager cg' = offsetManager cg /\
  messages cg' = messages cg /\ errors cg' = errors cg.
Proof.
  intros budget Hbudget Hfaults. unfold Cg.consumePartition.
  assert (0 <= configProcessingTimeout cg -> (3 <= budget)%nat) as Hthree.
  { intros Htimeout. subst budget.
    pose proof (Z.quot_pos (configProcessingTimeout cg) Second Htimeout eq_refl) as Hq.
    revert Hq. generalize (Z.quot (configProcessingTimeout cg) Second). intros q Hq. lia. }
  pose proof (claimLoop_contended budget (kazoo cg) topic partition rest Hbudget Hfaults)
    as Hloop.
  fold budget.
  destruct (Cg.claimLoop budget (kazoo cg) topic partition) as [zk1 err].
  destruct Hloop as (-> & _ & _ & Hcalls). cbn.
  repeat split; auto.
Qed.

Lemma consumePartition_contended_witness :
  let cg :=
    mkCg OffsetNewest (2 * Second) (mkBroker [] [])
         (mkZk ∅ (replicate 5 (Some ErrPartitionClaimedByOther)) [])
         true false [] false [] false false Zom.NewZookeeperOffsetManager in
  let '(cg', exit) := Cg.consumePartition cg "t" 0 false [EvStop] false in
  exit = ExitClaim ErrPartitionClaimedByOther /\
  zkCalls (kazoo cg') = replicate 5 (ZkClaimPartition "t" 0).
Proof.
  cbv zeta.
  pose proof (consumePartition_contended
    (mkCg OffsetNewest (2 * Second) (mkBroker [] [])
          (mkZk ∅ (replicate 5 (Some ErrPartitionClaimedByOther)) [])
          true false [] false [] false false Zom.NewZookeeperOffsetManager)
    "t" 0 [EvStop] false [] ltac:(vm_compute; discriminate) eq_refl) as H.
  cbv zeta in H.
  destruct (Cg.consumePartition _ "t" 0 false [EvStop] false) as [cg' exit].
  destruct H as (He & Hc & _). split; [exact He | exact Hc].
Defined.

End Claim.

(** ** Consuming a partition *)

Section ConsumePartition.

Implicit Types (zk : zookeeper) (cg : ConsumerGroup).
Implicit Types (topic : string) (partition : Z).






(** X19: when the partition consumer cannot be opened, [consumePartition]
    returns without [FinalizePartition]: the tracker that
    [InitializePartition] installed stays in the offset map, and a [Close]
    of the offset manager then returns [UncleanClose]. *)
Theorem consumePartition_open_failure_unclean cg topic partition stopped events
    doneBeforeTimeout cg' err :
  Cg.consumePartition cg topic partition stopped events doneBeforeTimeout
  = (cg', ExitOpen err) ->
  closing (offsetManager cg) = false ->
  (exists nextOffset,
     lookupTracker (offsetManager cg') topic partition = Some (newTracker nextOffset)) /\
  forall ticks,
    snd (Zom.Close ticks (kazoo cg') (offsetManager cg')) = Returns (Some UncleanClose).
Proof.
  unfold Cg.consumePartition. destruct stopped; [discriminate|].
  destruct (Cg.claimLoop _ (kazoo cg) topic partition) as [zk1 [e|]]; [discriminate|].
  pose proof (InitializePartition_lookup zk1 (offsetManager cg) topic partition
                topic partition) as Hlook.
  pose proof (InitializePartition_channels zk1 (offsetManager cg) topic partition) as Hch.
  unfold Zom.InitializePartition in *.
  destruct (FetchOffset zk1 topic partition) as [zk2 [nextOffset [e|]]];
    cbn [fst snd] in *; [discriminate|].
  rewrite decide_True in Hlook by reflexivity.
  destruct (Cg.openPartition _ topic partition _) as [br3 [e|]].
  - intros [= <- <-] Hopen. cbn [offsetManager kazoo setKazoo setConsumer setOffsetManager].
    split; [eauto|]. intros ticks.
    match goal with
    | |- snd (Zom.Close ticks ?zk ?zom) = _ =>
        destruct (Close_result_cases ticks zk zom) as [[H _]|[_ Hnone]];
          [congruence | exact H |]
    end.
    rewrite Hnone in Hlook. discriminate.
  - destruct (Cg.partitionConsumerLoop topic partition events (-1) _)
      as [[cg4 lastOffset] [|]]; [|discriminate].
    destruct (Zom.FinalizePartition _ _ topic partition lastOffset _ _)
      as [[[zk5 zom5] calls] result]. discriminate.
Qed.

Lemma consumePartition_open_failure_unclean_witness :
  let cg := exampleGroup [Some (BrokerError "not leader for partition")] in
  let cg' := fst (Cg.consumePartition cg "t" 0 false [EvStop] false) in
  snd (Cg.consumePartition cg "t" 0 false [EvStop] false)
  = ExitOpen (BrokerError "not leader for partition") /\
  snd (Zom.Close 0 (kazoo cg') (offsetManager cg')) = Returns (Some UncleanClose).
Proof.
  cbv zeta.
  destruct (Cg.consumePartition (exampleGroup [Some (BrokerError "not leader for partition")])
              "t" 0 false [EvStop] false) as [cg' exit] eqn:E.
  assert (exit = ExitOpen (BrokerError "not leader for partition")) as ->
    by (vm_compute in E; congruence).
  split; [reflexivity|]. cbn [fst].
  exact (proj2 (consumePartition_open_failure_unclean _ _ _ _ _ _ _ _ E eq_refl) 0%nat).
Defined.

(** X20: delivery and marking go together.  Over any run of the loop of
    [consumePartition] on a partition that has a tracker, what was sent on
    [messages] before stays in front of what the loop sends; the tracker
    keeps its processed and committed offsets; and when the loop sent a
    message that is not nil, [lastConsumedOffset] and the last offset the
    loop recorded are both the offset of the last such message it sent,
    while they are as on entry when it sent none. *)
Theorem partitionConsumerLoop_last_consumed topic partition events :
  forall lastOffset cg tracker,
  lookupTracker (offsetManager cg) topic partition = Some tracker ->
  let '(cg', lastOffset', _) :=
    Cg.partitionConsumerLoop topic partition events lastOffset cg in
  exists sent tracker',
    messages cg' = messages cg ++ sent /\
    lookupTracker (offsetManager cg') topic partition = Some tracker' /\
    highestMarkedAsProcessedOffset tracker' = highestMarkedAsProcessedOffset tracker /\
    lastCommittedOffset tracker' = lastCommittedOffset tracker /\
    match last (omap id sent) with
    | Some m => lastOffset' = msgOffset m /\ lastConsumedOffset tracker' = msgOffset m
    | None =>
        lastOffset' = lastOffset /\
        lastConsumedOffset tracker' = lastConsumedOffset tracker
    end.
Proof.
  assert (forall lastOffset cg tracker,
            lookupTracker (offsetManager cg) topic partition = Some tracker ->
            exists sent tracker',
              messages cg = messages cg ++ sent /\
              lookupTracker (offsetManager cg) topic partition = Some tracker' /\
              highestMarkedAsProcessedOffset tracker'
              = highestMarkedAsProcessedOffset tracker /\
              lastCommittedOffset tracker' = lastCommittedOffset tracker /\
              match last (omap id sent) with
              | Some m =>
                  lastOffset = msgOffset m /\ lastConsumedOffset tracker' = msgOffset m
              | None =>
                  lastOffset = lastOffset /\
                  lastConsumedOffset tracker' = lastConsumedOffset tracker
              end) as Hnothing.
  { intros lastOffset cg tracker Hlook. exists [], tracker.
    rewrite app_nil_r. cbn.
    repeat (split; [assumption || reflexivity|]). split; reflexivity. }
  induction events as [|[|err delivered|message delivered] events IH];
    intros lastOffset cg tracker Hlook; cbn.
  - apply Hnothing, Hlook.
  - apply Hnothing, Hlook.
  - destruct delivered; [|apply Hnothing, Hlook].
    specialize (IH lastOffset (sendError err cg) tracker Hlook).
    destruct (Cg.partitionConsumerLoop topic partition events lastOffset _)
      as [[cg' lastOffset'] exited]. exact IH.
  - destruct delivered; [|apply Hnothing, Hlook].
    destruct message as [m|].
    + unfold Zom.MarkAsConsumed. cbn [offsetManager sendMessage]. rewrite Hlook.
      assert (lookupTracker
                (offsetManager
                   (setOffsetManager
                      (storeTracker topic partition
                         (setLastConsumedOffset (msgOffset m) tracker) (offsetManager cg))
                      (sendMessage (Some m) cg))) topic partition
              = Some (setLastConsumedOffset (msgOffset m) tracker)) as Hlook'.
      { cbn. apply lookupTracker_storeTracker. eapply lookupTracker_topic, Hlook. }
      specialize (IH (msgOffset m) _ _ Hlook').
      destruct (Cg.partitionConsumerLoop topic partition events (msgOffset m) _)
        as [[cg' lastOffset'] exited].
      destruct IH as (sent & tracker' & Hsent & Htr & Hh & Hc & Hlast).
      cbn in Hsent, Hh, Hc, Hlast.
      exists (Some m :: sent), tracker'.
      split; [rewrite Hsent, <- app_assoc; reflexivity|].
      repeat (split; [assumption|]).
      change (omap id (Some m :: sent)) with (m :: omap id sent). rewrite last_cons.
      destruct (last (omap id sent)) as [m'|]; exact Hlast.
    + specialize (IH lastOffset (sendMessage None cg) tracker Hlook).
      destruct (Cg.partitionConsumerLoop topic partition events lastOffset _)
        as [[cg' lastOffset'] exited].
      destruct IH as (sent & tracker' & Hsent & Htr & Hh & Hc & Hlast).
      cbn in Hsent.
      exists (None :: sent), tracker'.
      split; [rewrite Hsent, <- app_assoc; reflexivity|].
      repeat (split; [assumption|]). exact Hlast.
Qed.

Lemma partitionConsumerLoop_last_consumed_witness :
  let cg :=
    setOffsetManager
      (mkZom {[ "t" := {[ 0 := newTracker 50 ]} ]} false false) (exampleGroup []) in
  let '(cg', lastOffset', _) :=
    Cg.partitionConsumerLoop "t" 0
      [EvMessage (Some (mkMessage "t" 0 50)) true;
       EvMessage (Some (mkMessage "t" 0 51)) true; EvStop] (-1) cg in
  lastOffset' = 51 /\
  exists tracker',
    lookupTracker (offsetManager cg') "t" 0 = Some tracker' /\
    lastConsumedOffset tracker' = 51.
Proof.
  cbv zeta.
  pose proof (partitionConsumerLoop_last_consumed "t" 0
    [EvMessage (Some (mkMessage "t" 0 50)) true;
     EvMessage (Some (mkMessage "t" 0 51)) true; EvStop] (-1)
    (setOffsetManager
       (mkZom {[ "t" := {[ 0 := newTracker 50 ]} ]} false false) (exampleGroup []))
    (newTracker 50) eq_refl) as H.
  destruct (Cg.partitionConsumerLoop "t" 0 _ (-1) _) as [[cg' lastOffset'] exited] eqn:E.
  assert (lastOffset' = 51 /\
          messages cg' = [Some (mkMessage "t" 0 50); Some (mkMessage "t" 0 51)])
    as [-> Hmessages] by (vm_compute in E; injection E as <- <- _; split; reflexivity).
  split; [reflexivity|].
  destruct H as (sent & tracker' & Hsent & Htr & _ & _ & Hlast).
  cbn in Hsent. rewrite Hmessages in Hsent. subst sent. cbn in Hlast.
  exists tracker'. split; [exact Htr | apply Hlast].
Defined.

Lemma partitionConsumerLoop_frame topic partition events : forall lastOffset cg,
  closing (offsetManager
             (fst (fst (Cg.partitionConsumerLoop topic partition events lastOffset cg))))
  = closing (offsetManager cg) /\
  forall topic' partition',
    (topic', partition') <> (topic, partition) ->
    lookupTracker
      (offsetManager
         (fst (fst (Cg.partitionConsumerLoop topic partition events lastOffset cg))))
      topic' partition'
    = lookupTracker (offsetManager cg) topic' partition'.
Proof.
  induction events as [|[|err delivered|message delivered] events IH];
    intros lastOffset cg; cbn; try (split; reflexivity).
  - destruct delivered; [|split; reflexivity]. apply (IH lastOffset (sendError err cg)).
  - destruct delivered; [|split; reflexivity].
    destruct message as [m|]; [|apply (IH lastOffset (sendMessage None cg))].
    pose proof (fun topic' partition' =>
                  MarkAsConsumed_frame (offsetManager cg) topic partition
                    topic' partition' (msgOffset m)) as Hframe.
    assert (closing (fst (Zom.MarkAsConsumed (offsetManager cg) topic partition
                            (msgOffset m))) = closing (offsetManager cg)) as Hch.
    { unfold Zom.MarkAsConsumed.
      destruct (lookupTracker (offsetManager cg) topic partition); reflexivity. }
    cbn [offsetManager sendMessage].
    destruct (Zom.MarkAsConsumed (offsetManager cg) topic partition (msgOffset m))
      as [zom r]. cbn [fst] in Hframe, Hch.
    destruct (IH (msgOffset m) (setOffsetManager zom (sendMessage (Some m) cg)))
      as [IHch IHframe].
    split; [rewrite IHch; exact Hch|].
    intros topic' partition' Hne. rewrite IHframe by exact Hne. apply Hframe, Hne.
Qed.

(** X25: a generation that ends cleanly leaves nothing behind.  On a group
    whose offset manager holds no tracker, when [consumePartition] has left
    its loop and [FinalizePartition] returned [nil], the partition consumer
    was closed by the last request to the broker, and a [Close] of the
    offset manager returns [nil]. *)
Theorem consumePartition_finalized_clean cg topic partition stopped events
    doneBeforeTimeout cg' :
  Cg.consumePartition cg topic partition stopped events doneBeforeTimeout
  = (cg', ExitFinalized (Returns None)) ->
  closing (offsetManager cg) = false ->
  (forall topic' partition', lookupTracker (offsetManager cg) topic' partition' = None) ->
  last (brCalls (consumer cg')) = Some (BrPartitionConsumerClose topic partition) /\
  (forall topic' partition', lookupTracker (offsetManager cg') topic' partition' = None) /\
  forall ticks, snd (Zom.Close ticks (kazoo cg') (offsetManager cg')) = Returns None.
Proof.
  unfold Cg.consumePartition. destruct stopped; [discriminate|].
  destruct (Cg.claimLoop _ (kazoo cg) topic partition) as [zk1 [e|]]; [discriminate|].
  pose proof (fun topic' partition' =>
                InitializePartition_frame zk1 (offsetManager cg) topic partition
                  topic' partition') as Hinit.
  pose proof (InitializePartition_channels zk1 (offsetManager cg) topic partition) as Hch1.
  destruct (Zom.InitializePartition zk1 (offsetManager cg) topic partition)
    as [[zk2 zom2] [nextOffset [e|]]]; [discriminate|]. cbn [fst snd] in Hinit, Hch1.
  destruct (Cg.openPartition _ topic partition _) as [br3 [e|]]; [discriminate|].
  pose proof (partitionConsumerLoop_frame topic partition events (-1)
                (setConsumer br3 (setKazoo zk2 (setOffsetManager zom2 cg))))
    as [Hch2 Hloop].
  destruct (Cg.partitionConsumerLoop topic partition events (-1) _)
    as [[cg4 lastOffset] [|]]; [|discriminate]. cbn [fst offsetManager setConsumer
      setKazoo setOffsetManager] in Hch2, Hloop.
  pose proof (FinalizePartition_nil_removed (kazoo cg4) (offsetManager cg4) topic
                partition lastOffset (configProcessingTimeout cg4) doneBeforeTimeout)
    as Hgone.
  pose proof (FinalizePartition_channels (kazoo cg4) (offsetManager cg4) topic
                partition lastOffset (configProcessingTimeout cg4) doneBeforeTimeout)
    as Hch3.
  pose proof (fun topic' partition' =>
                FinalizePartition_frame (kazoo cg4) (offsetManager cg4) topic partition
                  topic' partition' lastOffset (configProcessingTimeout cg4)
                  doneBeforeTimeout) as Hfin.
  destruct (Zom.FinalizePartition (kazoo cg4) (offsetManager cg4) topic partition
              lastOffset (configProcessingTimeout cg4) doneBeforeTimeout)
    as [[[zk5 zom5] calls] result]. cbn [fst snd] in Hgone, Hch3, Hfin.
  intros [= <- ->] Hopen Hempty.
  cbn [consumer offsetManager kazoo setConsumer setKazoo setOffsetManager].
  assert (forall topic' partition', lookupTracker zom5 topic' partition' = None) as Hnone.
  { intros topic' partition'.
    destruct (decide ((topic', partition') = (topic, partition))) as [[= -> ->]|Hne].
    - apply Hgone. reflexivity.
    - rewrite Hfin, Hloop, Hinit by exact Hne. apply Hempty. }
  split; [|split; [exact Hnone|]].
  - unfold PartitionConsumerClose. rewrite brokerRequest_calls. apply last_snoc.
  - intros ticks.
    match goal with
    | |- snd (Zom.Close ticks ?zk ?zom) = _ =>
        destruct (Close_result_cases ticks zk zom) as [[_ Hex]|[H _]];
          [congruence | | exact H]
    end.
    destruct Hex as (topic' & partition' & tracker & Htr).
    rewrite Hnone in Htr. discriminate.
Qed.

Lemma consumePartition_finalized_clean_witness :
  let cg := exampleGroup [] in
  let events :=
    [EvMessage (Some (mkMessage "t" 0 1000)) true; EvStop] in
  let cg' := fst (Cg.consumePartition cg "t" 0 false events false) in
  snd (Cg.consumePartition cg "t" 0 false events false) = ExitFinalized (Returns None) /\
  snd (Zom.Close 0 (kazoo cg') (offsetManager cg')) = Returns None.
Proof.
  cbv zeta.
  destruct (Cg.consumePartition (exampleGroup []) "t" 0 false
              [EvMessage (Some (mkMessage "t" 0 1000)) true; EvStop] false)
    as [cg' exit] eqn:E.
  assert (exit = ExitFinalized (Returns None)) as -> by (vm_compute in E; congruence).
  split; [reflexivity|]. cbn [fst].
  exact (proj2 (proj2 (consumePartition_finalized_clean _ _ _ _ _ _ _ E eq_refl
                         (fun _ _ => eq_refl))) 0%nat).
Defined.

End ConsumePartition.

(** ** Joining a group *)

Section Join.

Implicit Types (env : joinEnv) (zk : zookeeper) (br : broker).
Implicit Types (name : string) (topics zookeeperAddrs : list string).

(** X21: [JoinConsumerGroup] checks its arguments before anything else.
    With an empty name, no topic or no address of the coordination service
    it takes no step and returns no group; the empty name is reported first,
    then the missing topics, then [EmptyZkAddrs]. *)
Theorem JoinConsumerGroup_invalid_arguments env zk br name topics zookeeperAddrs config :
  name = "" \/ topics = [] \/ zookeeperAddrs = [] ->
  let '(steps, cg, err) :=
    JoinConsumerGroup env zk br name topics zookeeperAddrs config in
  steps = [] /\ cg = None /\
  (name = "" -> err = Some (ConfigurationError "Empty consumergroup name")) /\
  (name <> "" -> topics = [] -> err = Some (ConfigurationError "No topics provided")) /\
  (name <> "" -> topics <> [] -> err = Some EmptyZkAddrs).
Proof.
  intros Hbad. unfold JoinConsumerGroup.
  destruct (String.eqb_spec name "") as [->|Hname].
  { repeat split; congruence. }
  destruct topics as [|topic topics]; cbn [length Nat.eqb].
  { repeat split; congruence. }
  destruct zookeeperAddrs as [|addr addrs]; cbn [length Nat.eqb].
  { repeat split; congruence. }
  destruct Hbad as [?|[?|?]]; congruence.
Qed.

Lemma JoinConsumerGroup_invalid_arguments_witness :
  JoinConsumerGroup
    (mkJoinEnv (mkConfig OffsetNewest (2 * Second) false) (fun _ => None)
               None None None None (true, None) None None)
    (mkZk ∅ [] []) (mkBroker [] []) "g" [] ["zk1:2181"] None
  = ([], None, Some (ConfigurationError "No topics provided")).
Proof.
  pose proof (JoinConsumerGroup_invalid_arguments
    (mkJoinEnv (mkConfig OffsetNewest (2 * Second) false) (fun _ => None)
               None None None None (true, None) None None)
    (mkZk ∅ [] []) (mkBroker [] []) "g" [] ["zk1:2181"] None
    (or_intror (or_introl eq_refl))) as H.
  destruct (JoinConsumerGroup _ _ _ "g" [] ["zk1:2181"] None) as [[steps cg] err].
  destruct H as (-> & -> & _ & H & _). rewrite H; [reflexivity | discriminate | reflexivity].
Defined.

(** A step that differs from every step of an explicit list is not in it;
    one that occurs in it is. *)
Ltac absent Hin :=
  cbn [app] in Hin;
  repeat (apply elem_of_cons in Hin as [Hin|Hin]; [discriminate Hin|]);
  apply elem_of_nil in Hin; exact Hin.

Ltac present :=
  cbn [app];
  solve [repeat first [apply list_elem_of_here | apply list_elem_of_further]].

(** One way [JoinConsumerGroup] fails, with its explicit list of steps. *)
Ltac failure_leaf :=
  intros _;
  split; [reflexivity|];
  split; [intros Hin; absent Hin|];
  split; [intros Hin; absent Hin|];
  split; [first [intros _; left; reflexivity | intros _; right; reflexivity
                | intros Hin; exfalso; absent Hin]|];
  split; [first [ intros _; right; reflexivity
                | intros _; left; eexists; reflexivity
                | intros Hin; exfalso; absent Hin]|];
  first [ intros Hin; exfalso; absent Hin
        | intros _; split; [reflexivity|]; split; [reflexivity|];
          split; intros Hin; absent Hin ].

(** One way [JoinConsumerGroup] succeeds. *)
Ltac success_leaf :=
  intros _; cbn [fst];
  split; [congruence|]; split; [congruence|]; split; [congruence|];
  split; [reflexivity|];
  split; [split; [first [reflexivity | intros Hin; exfalso; absent Hin]
                 | first [discriminate | intros _; present]]|];
  split; [split; [first [reflexivity | intros Hin; exfalso; absent Hin]
                 | first [discriminate | intros _; present]]|];
  split;
    [eexists; split; [reflexivity|]; cbn [app];
     repeat (apply Forall_cons; split;
             [repeat first [reflexivity | left; reflexivity | right]|]);
     constructor|];
  intros group [= <-]; repeat split; reflexivity.

(** X22: what [JoinConsumerGroup] leaves behind when it fails.  It returns
    no group and starts neither the offset manager nor the goroutine of
    [consumeTopics].  Once the connection to the coordination service is
    open, a failure closes it as the last step, after the broker client when
    that was created; except when it is [Register] that fails: whenever
    [Register] was requested and the join fails, that request is the last
    step, its error is the one returned, and neither connection was
    closed. *)
Theorem JoinConsumerGroup_failure env zk br name topics zookeeperAddrs config :
  let '(steps, cg, err) :=
    JoinConsumerGroup env zk br name topics zookeeperAddrs config in
  err <> None ->
  cg = None /\
  (StepNewOffsetManager ∉ steps) /\
  (StepConsumeTopics topics ∉ steps) /\
  (StepBrokerList ∈ steps ->
     last steps = Some StepKazooClose \/ last steps = Some (StepRegister topics)) /\
  (StepExists ∈ steps ->
     (exists before, steps = before ++ [StepConsumerClose; StepKazooClose]) \/
     last steps = Some (StepRegister topics)) /\
  (StepRegister topics ∈ steps ->
     last steps = Some (StepRegister topics) /\
     err = Collaborator <$> envRegister env /\
     (StepKazooClose ∉ steps) /\ (StepConsumerClose ∉ steps)).
Proof.
  unfold JoinConsumerGroup.
  destruct (String.eqb name ""); [failure_leaf|].
  destruct (Nat.eqb (length topics) 0); [failure_leaf|].
  destruct (Nat.eqb (length zookeeperAddrs) 0); [failure_leaf|].
  cbv zeta.
  destruct (envValidate env _); [failure_leaf|].
  destruct (envNewKazoo env); [failure_leaf|].
  destruct (envBrokerList env); [failure_leaf|].
  destruct (cfgResetOffsets _); [destruct (envResetOffsets env); [failure_leaf|]|].
  - destruct (envNewConsumer env); [failure_leaf|].
    destruct (envExists env) as [groupExists [e|]]; [failure_leaf|].
    destruct groupExists; [|destruct (envCreate env); [failure_leaf|]];
      (destruct (envRegister env) eqn:Eregister; [failure_leaf | intros Herr; congruence]).
  - destruct (envNewConsumer env); [failure_leaf|].
    destruct (envExists env) as [groupExists [e|]]; [failure_leaf|].
    destruct groupExists; [|destruct (envCreate env); [failure_leaf|]];
      (destruct (envRegister env) eqn:Eregister; [failure_leaf | intros Herr; congruence]).
Qed.

Lemma JoinConsumerGroup_failure_witness :
  let env :=
    mkJoinEnv (mkConfig OffsetNewest (2 * Second) false) (fun _ => None)
              None None None None (true, None) None (Some (ZkError "node exists")) in
  let '(steps, cg, err) :=
    JoinConsumerGroup env (mkZk ∅ [] []) (mkBroker [] []) "g" ["t"] ["zk1:2181"] None in
  cg = None /\ err = Some (Collaborator (ZkError "node exists")) /\
  (StepKazooClose ∉ steps) /\ (StepConsumerClose ∉ steps).
Proof.
  cbv zeta.
  pose proof (JoinConsumerGroup_failure
    (mkJoinEnv (mkConfig OffsetNewest (2 * Second) false) (fun _ => None)
               None None None None (true, None) None (Some (ZkError "node exists")))
    (mkZk ∅ [] []) (mkBroker [] []) "g" ["t"] ["zk1:2181"] None) as H.
  destruct (JoinConsumerGroup _ _ _ "g" ["t"] ["zk1:2181"] None) as [[steps cg] err] eqn:E.
  assert (err = Some (Collaborator (ZkError "node exists")) /\
          StepRegister ["t"] ∈ steps) as [-> Hrequested].
  { vm_compute in E. injection E as <- _ <-. split; [reflexivity|]. present. }
  destruct (H ltac:(discriminate)) as (Hcg & _ & _ & _ & _ & Hleak).
  destruct (Hleak Hrequested) as (_ & _ & Hk & Hc). auto.
Defined.

(** X23: what [JoinConsumerGroup] has done when it succeeds.  The arguments
    were valid; the group it returns is open, with empty output channels and
    an offset manager without trackers; the stored offsets were reset
    exactly when the configuration asks for it, and then the group starts
    with none stored, while otherwise it finds them as they were; the group
    was created exactly when it did not exist; the instance was registered
    after that, the offset manager and the goroutine of [consumeTopics] were
    started last, and no connection was closed. *)
Theorem JoinConsumerGroup_success env zk br name topics zookeeperAddrs config :
  let '(steps, cg, err) :=
    JoinConsumerGroup env zk br name topics zookeeperAddrs config in
  err = None ->
  let config' := default (envNewConfig env) config in
  name <> "" /\ topics <> [] /\ zookeeperAddrs <> [] /\
  cg = Some (newConsumerGroup config'
               (if cfgResetOffsets config' then ResetOffsets zk else zk) br) /\
  (StepResetOffsets ∈ steps <-> cfgResetOffsets config' = true) /\
  (StepCreate ∈ steps <-> fst (envExists env) = false) /\
  (exists before,
     steps = before ++ [StepRegister topics; StepNewOffsetManager;
                        StepConsumeTopics topics] /\
     Forall (fun step => step = StepNewKazoo \/ step = StepBrokerList \/
                         step = StepResetOffsets \/ step = StepNewConsumer \/
                         step = StepExists \/ step = StepCreate) before) /\
  (forall group, cg = Some group ->
     Cg.Closed group = false /\
     messages group = [] /\ errors group = [] /\
     offsets (offsetManager group) = ∅ /\
     zkOffsets (kazoo group)
     = if cfgResetOffsets config' then ∅ else zkOffsets zk).
Proof.
  unfold JoinConsumerGroup.
  destruct (String.eqb_spec name "") as [->|Hname]; [discriminate|].
  destruct topics as [|topic topics]; cbn [length Nat.eqb]; [discriminate|].
  destruct zookeeperAddrs as [|addr addrs]; cbn [length Nat.eqb]; [discriminate|].
  cbv zeta.
  destruct (envValidate env _); [discriminate|].
  destruct (envNewKazoo env); [discriminate|].
  destruct (envBrokerList env); [discriminate|].
  destruct (cfgResetOffsets _); [destruct (envResetOffsets env); [discriminate|]|];
    (destruct (envNewConsumer env); [discriminate|]);
    (destruct (envExists env) as [groupExists [e|]]; [discriminate|]);
    (destruct groupExists; [|destruct (envCreate env); [discriminate|]]);
    (destruct (envRegister env); [discriminate|]);
    success_leaf.
Qed.

Lemma JoinConsumerGroup_success_witness :
  let env :=
    mkJoinEnv (mkConfig OffsetNewest (2 * Second) true) (fun _ => None)
              None None None None (false, None) None None in
  let '(steps, cg, err) :=
    JoinConsumerGroup env (mkZk {[ ("t", 0) := 1000 ]} [] []) (mkBroker [] [])
                      "g" ["t"] ["zk1:2181"] None in
  err = None /\
  steps = [StepNewKazoo; StepBrokerList; StepResetOffsets; StepNewConsumer; StepExists;
           StepCreate; StepRegister ["t"]; StepNewOffsetManager; StepConsumeTopics ["t"]] /\
  exists group, cg = Some group /\ zkOffsets (kazoo group) = ∅.
Proof.
  cbv zeta.
  pose proof (JoinConsumerGroup_success
    (mkJoinEnv (mkConfig OffsetNewest (2 * Second) true) (fun _ => None)
               None None None None (false, None) None None)
    (mkZk {[ ("t", 0) := 1000 ]} [] []) (mkBroker [] []) "g" ["t"] ["zk1:2181"] None) as H.
  destruct (JoinConsumerGroup _ _ _ "g" ["t"] ["zk1:2181"] None) as [[steps cg] err] eqn:E.
  assert (err = None) as -> by (vm_compute in E; congruence).
  destruct (H eq_refl) as (_ & _ & _ & Hcg & _ & _ & _ & Hstate).
  split; [reflexivity|]. split; [vm_compute in E; congruence|].
  destruct cg as [group|]; [|discriminate].
  exists group. split; [reflexivity|].
  destruct (Hstate group eq_refl) as (_ & _ & _ & _ & Hoffsets). exact Hoffsets.
Defined.

End Join.

(** ** The short instance id *)

Section ShortID.

Lemma substring_whole (s : string) : String.substring 0 (String.length s) s = s.
Proof. induction s as [|c s IH]; cbn; [reflexivity | rewrite IH; reflexivity]. Qed.

(** Cutting a string at [n]: the two parts give the string back, and the
    second has the length that is left. *)
Lemma substring_cut (s : string) : forall n : nat,
  (n <= String.length s)%nat ->
  String.append (String.substring 0 n s)
                (String.substring n (String.length s - n) s) = s /\
  String.length (String.substring n (String.length s - n) s)
  = (String.length s - n)%nat.
Proof.
  induction s as [|c s IH]; intros n Hn.
  - destruct n; cbn in *; [split; reflexivity | lia].
  - destruct n as [|n].
    + replace (String.length (String c s) - 0)%nat with (String.length (String c s))
        by lia.
      rewrite substring_whole. split; reflexivity.
    + cbn in Hn. destruct (IH n ltac:(lia)) as [Happ Hlen].
      change (String.length (String c s) - S n)%nat with (String.length s - n)%nat.
      change (String.substring 0 (S n) (String c s))
        with (String c (String.substring 0 n s)).
      change (String.substring (S n) (String.length s - n) (String c s))
        with (String.substring n (String.length s - n) s).
      change (String.append (String c (String.substring 0 n s))
                (String.substring n (String.length s - n) s))
        with (String c (String.append (String.substring 0 n s)
                          (String.substring n (String.length s - n) s))).
      rewrite Happ. split; [reflexivity | exact Hlen].
Qed.

(** X24: [shortID] of an instance whose id has at least twelve bytes is the
    last twelve bytes of the id; for a shorter id the slice is out of range
    and the call panics; without instance it is ["(defunct)"]. *)
Theorem shortID_last_twelve_bytes (ID : string) :
  ((12 <= String.length ID)%nat ->
   exists prefix short,
     shortID (Some ID) = Some short /\
     String.append prefix short = ID /\
     String.length short = 12%nat) /\
  ((String.length ID < 12)%nat -> shortID (Some ID) = None) /\
  shortID None = Some "(defunct)".
Proof.
  unfold shortID. split; [|split; [|reflexivity]].
  - intros Hlen. destruct (Nat.ltb_spec (String.length ID) 12) as [Hlt|_]; [lia|].
    destruct (substring_cut ID (String.length ID - 12) ltac:(lia)) as [Happ Hl].
    replace (String.length ID - (String.length ID - 12))%nat with 12%nat in * by lia.
    eauto.
  - intros Hlen. destruct (Nat.ltb_spec (String.length ID) 12) as [_|Hge]; [reflexivity|lia].
Qed.

Lemma shortID_last_twelve_bytes_witness :
  shortID (Some "host-1:6ba7b810-9dad-11d1-80b4-00c04fd430c8") = Some "00c04fd430c8" /\
  shortID (Some "host-1") = None.
Proof.
  destruct (shortID_last_twelve_bytes "host-1") as (_ & Hshort & _).
  split; [reflexivity | apply Hshort; cbn; lia].
Defined.

End ShortID.
